(** * QueueCTL: the job store (src/queuectl/storage.py)

    A shallow embedding of the [Storage] class: the [jobs] and [config]
    tables, the connection each method opens (with its uncommitted
    transaction), and the methods themselves, statement by statement.

    Modelling conventions.
    - A table is the list of its rows in rowid order: [SELECT ... WHERE]
      is [filter], [fetchone] is [head], [UPDATE ... WHERE] rewrites the
      matching rows in place and reports their number as [rowcount],
      [INSERT] appends, [ORDER BY] is a sort.
    - A timestamp is the number of microseconds since 0001-01-01T00:00:00,
      the least [datetime]; the greatest is the last microsecond of the
      year 9999.  The source stores [datetime.isoformat()] strings and
      compares them as text; on such strings the text order is the
      chronological order.
    - Every reading of the clock ([datetime.utcnow()]) is an argument of the
      method that reads it.
    - An INTEGER column holds a signed 64-bit integer: binding a Python
      integer outside that range raises [OverflowError], and an SQL sum that
      leaves it is computed in double precision.
    - A method is one function on the store: it runs on the store as it
      finds it.  The SELECT of [acquire_job] opens no transaction, so that
      another connection can write before its UPDATE runs; the two steps
      are [acquire_select] and [acquire_lock], which the statements about
      such an interleaving run one after the other with a write between
      them. *)

From Stdlib Require Import QArith Ascii String.
From stdpp Require Import base tactics option list gmap strings sorting pretty.

Open Scope Z_scope.

(** ** Data model *)

Inductive job_state := pending | processing | completed | failed | dead.

#[global] Instance job_state_eq_dec : EqDecision job_state.
Proof. solve_decision. Defined.

Abbreviation timestamp := Z.

(** One row of the [jobs] table.  [execution_time] is a REAL column that
    the store only copies. *)
Record job := Job {
  id : string;
  command : string;
  state : job_state;
  attempts : Z;
  max_retries : Z;
  timeout : Z;
  backoff_base : Z;
  priority : Z;
  waiting_time : Z;
  next_retry_at : option timestamp;
  locked_by : option string;
  locked_at : option timestamp;
  output : option string;
  error_message : option string;
  execution_time : option Q;
  created_at : timestamp;
  updated_at : timestamp
}.

Record database := Database {
  jobs : list job;
  config : gmap string string
}.

(** What [sqlite3.connect] returns: the committed contents of the file and
    the contents as this connection sees them, its open transaction
    included. *)
Record connection := Connection {
  disk : database;
  view : database
}.

Definition connect (d : database) : connection := Connection d d.

(** [conn.close()]: what was not committed is rolled back. *)
Definition close (c : connection) : database := disk c.

(** ** Statements: state and exceptions *)

Inductive exn := IntegrityError | ValueError | OverflowError.

Inductive outcome (A : Type) :=
  | Ok (a : A)
  | Raise (e : exn).
Arguments Ok {A} a.
Arguments Raise {A} e.

Definition sql (A : Type) : Type := connection → outcome A * connection.

Definition ret {A} (a : A) : sql A := λ c, (Ok a, c).
Definition raise {A} (e : exn) : sql A := λ c, (Raise e, c).
Definition bind {A B} (m : sql A) (k : A → sql B) : sql B :=
  λ c, match m c with
       | (Ok a, c') => k a c'
       | (Raise e, c') => (Raise e, c')
       end.

(** [try: body except Exception: handler] *)
Definition try_except {A} (body : sql A) (handler : exn → sql A) : sql A :=
  λ c, match body c with
       | (Ok a, c') => (Ok a, c')
       | (Raise e, c') => handler e c'
       end.

#[global] Instance sql_ret : MRet sql := @ret.
#[global] Instance sql_bind : MBind sql := λ A B k m, bind m k.

Section statements.
Context (P : job → Prop) `{!∀ j, Decision (P j)}.

(** [SELECT * FROM jobs WHERE P] *)
Definition select_jobs : sql (list job) :=
  λ c, (Ok (filter P (jobs (view c))), c).

(** [UPDATE jobs SET ... WHERE P]; the result is [rowcount]. *)
Definition update_jobs (set : job → job) : sql nat :=
  λ c, (Ok (length (filter P (jobs (view c)))),
        Connection (disk c)
          (Database ((λ j, if decide (P j) then set j else j) <$> jobs (view c))
                    (config (view c)))).

(** [DELETE FROM jobs WHERE P] *)
Definition delete_jobs : sql nat :=
  λ c, (Ok (length (filter P (jobs (view c)))),
        Connection (disk c)
          (Database (filter (λ j, ¬ P j) (jobs (view c))) (config (view c)))).
End statements.

(** Modelled from the spec: [schema.sql] is not among the sources; the
    spec makes [id] the primary key of [jobs] ("inserting an existing
    [id] fails").  [INSERT INTO jobs] therefore raises [IntegrityError]
    when a row with that [id] is present, and appends the row otherwise. *)
Definition insert_job (row : job) : sql unit :=
  λ c, if decide (Exists (λ j, id j = id row) (jobs (view c)))
       then (Raise IntegrityError, c)
       else (Ok (), Connection (disk c)
                      (Database (jobs (view c) ++ [row]) (config (view c)))).

(** [SELECT value FROM config WHERE key = ?], then [fetchone]. *)
Definition select_config (key : string) : sql (option string) :=
  λ c, (Ok (config (view c) !! key), c).

(** [INSERT OR REPLACE INTO config (key, value)] *)
Definition upsert_config (key value : string) : sql unit :=
  λ c, (Ok (), Connection (disk c)
                 (Database (jobs (view c)) (<[key := value]> (config (view c))))).

Definition commit : sql unit :=
  λ c, (Ok (), Connection (view c) (view c)).

(** [fetchone] *)
Definition fetchone {A} (rows : list A) : option A := head rows.

(** A method body: [conn = self._get_connection(); try: body finally:
    conn.close()].  An exception the body does not catch reaches the
    caller after the connection is closed. *)
Definition transaction {A} (body : sql A) (d : database) : outcome A * database :=
  let '(r, c) := body (connect d) in (r, close c).

(** ** Integers and times *)

(** The values of an INTEGER column. *)
Definition int64 (z : Z) : Prop := - 2 ^ 63 ≤ z ≤ 2 ^ 63 - 1.

#[global] Instance int64_dec z : Decision (int64 z).
Proof. unfold int64. apply _. Defined.

(** Binding a Python integer to a parameter of a statement. *)
Definition bind_int (z : Z) : sql Z :=
  if decide (int64 z) then mret z else raise OverflowError.

(** The double nearest to an integer (ties to even); it is an integer. *)
Definition round_double (z : Z) : Z :=
  let e := Z.log2 (Z.abs z) - 52 in
  if decide (e ≤ 0) then z
  else
    let q := Z.abs z `div` 2 ^ e in
    let r := Z.abs z `mod` 2 ^ e in
    let half := 2 ^ (e - 1) in
    let q' := if decide (r < half) then q
              else if decide (half < r) then q + 1
              else if Z.even q then q else q + 1 in
    Z.sgn z * (q' * 2 ^ e).

(** The SQL sum of two integers: the integer when it fits in 64 bits,
    otherwise the sum of the two as doubles. *)
Definition sql_add (a b : Z) : Z :=
  if decide (int64 (a + b)) then a + b
  else round_double (round_double a + round_double b).

(** [datetime.max], the last microsecond of 9999-12-31. *)
Definition datetime_max : timestamp := 3652059 * 86400 * 1000000 - 1.


(** [timedelta(seconds=n)], in microseconds. *)
Definition seconds (n : Z) : Z := n * 1000000.

(** [t + timedelta(seconds=delay)] is defined: the days of the
    [timedelta] have magnitude at most 999999999 and the sum is a
    [datetime]. *)
Definition representable (t : timestamp) (delay : Z) : Prop :=
  (- 999999999 ≤ delay `div` 86400 ≤ 999999999)
  ∧ (0 ≤ t + seconds delay ≤ datetime_max).

#[global] Instance representable_dec t delay : Decision (representable t delay).
Proof. unfold representable. apply _. Defined.

(** [t + timedelta(seconds=delay)]; it raises [OverflowError] otherwise. *)
Definition datetime_add (t : timestamp) (delay : Z) : sql timestamp :=
  if decide (representable t delay) then mret (t + seconds delay)
  else raise OverflowError.

(** ** The scheduling policy *)

(** [next_retry_at <= now]; a NULL [next_retry_at] compares as unknown, so
    the row is not selected. *)
Definition retry_due (now : timestamp) (j : job) : Prop :=
  match next_retry_at j with
  | Some t => t ≤ now
  | None => False
  end.

#[global] Instance retry_due_dec now j : Decision (retry_due now j).
Proof. unfold retry_due. destruct (next_retry_at j); apply _. Defined.

(** The WHERE clause of the SELECT in [acquire_job]. *)
Definition eligible (now : timestamp) (j : job) : Prop :=
  (state j = pending ∨ (state j = failed ∧ retry_due now j))
  ∧ locked_by j = None.

#[global] Instance eligible_dec now j : Decision (eligible now j).
Proof. unfold eligible. apply _. Defined.

(** The effective priority the command line shows: Python's exact
    [job['priority'] + waiting_time] (queuectl.py, [list] and [show]). *)
Definition effective_priority (j : job) : Z := priority j + waiting_time j.

(** The value SQLite computes for [(priority + waiting_time)]. *)
Definition order_key (j : job) : Z := sql_add (priority j) (waiting_time j).

(** [ORDER BY (priority + waiting_time) DESC, created_at ASC]: [a] is not
    placed after [b]. *)
Definition ranks_before (a b : job) : Prop :=
  order_key b < order_key a
  ∨ (order_key a = order_key b ∧ created_at a ≤ created_at b).

#[global] Instance ranks_before_dec : RelDecision ranks_before.
Proof. intros a b. unfold ranks_before. apply _. Defined.

Definition order_by (rows : list job) : list job := merge_sort ranks_before rows.

(** [LIMIT n] *)
Definition limit {A} (n : nat) (rows : list A) : list A := take n rows.

(** The WHERE clause of the aging UPDATE in [enqueue_job]. *)
Definition waiting_unlocked (j : job) : Prop :=
  (state j = pending ∨ state j = failed) ∧ locked_by j = None.

#[global] Instance waiting_unlocked_dec j : Decision (waiting_unlocked j).
Proof. unfold waiting_unlocked. apply _. Defined.

(** ** The SET clauses *)

(** [SET waiting_time = waiting_time + 1] *)
Definition set_aged (j : job) : job :=
  Job (id j) (command j) (state j) (attempts j) (max_retries j) (timeout j)
      (backoff_base j) (priority j) (waiting_time j + 1) (next_retry_at j)
      (locked_by j) (locked_at j) (output j) (error_message j)
      (execution_time j) (created_at j) (updated_at j).

(** [SET state = 'processing', locked_by = ?, locked_at = ?, updated_at = ?] *)
Definition set_locked (worker_id : string) (now : timestamp) (j : job) : job :=
  Job (id j) (command j) processing (attempts j) (max_retries j) (timeout j)
      (backoff_base j) (priority j) (waiting_time j) (next_retry_at j)
      (Some worker_id) (Some now) (output j) (error_message j)
      (execution_time j) (created_at j) now.

(** [SET state = 'completed', output = ?, execution_time = ?,
    locked_by = NULL, locked_at = NULL, updated_at = ?] *)
Definition set_completed (out : string) (t_exec : option Q) (now : timestamp)
    (j : job) : job :=
  Job (id j) (command j) completed (attempts j) (max_retries j) (timeout j)
      (backoff_base j) (priority j) (waiting_time j) (next_retry_at j)
      None None (Some out) (error_message j)
      t_exec (created_at j) now.

(** [SET state = 'dead', attempts = ?, error_message = ?, execution_time = ?,
    locked_by = NULL, locked_at = NULL, next_retry_at = NULL, updated_at = ?] *)
Definition set_dead (attempts' : Z) (msg : string) (t_exec : option Q)
    (now : timestamp) (j : job) : job :=
  Job (id j) (command j) dead attempts' (max_retries j) (timeout j)
      (backoff_base j) (priority j) (waiting_time j) None
      None None (output j) (Some msg)
      t_exec (created_at j) now.

(** [SET state = 'failed', attempts = ?, error_message = ?, execution_time = ?,
    locked_by = NULL, locked_at = NULL, next_retry_at = ?, updated_at = ?] *)
Definition set_failed (attempts' : Z) (msg : string) (t_exec : option Q)
    (next_retry : timestamp) (now : timestamp) (j : job) : job :=
  Job (id j) (command j) failed attempts' (max_retries j) (timeout j)
      (backoff_base j) (priority j) (waiting_time j) (Some next_retry)
      None None (output j) (Some msg)
      t_exec (created_at j) now.

(** [SET state = 'pending', attempts = 0, error_message = NULL,
    next_retry_at = NULL, locked_by = NULL, locked_at = NULL, updated_at = ?] *)
Definition set_retried (now : timestamp) (j : job) : job :=
  Job (id j) (command j) pending 0 (max_retries j) (timeout j)
      (backoff_base j) (priority j) (waiting_time j) None
      None None (output j) None
      (execution_time j) (created_at j) now.


(** ** The methods of [Storage] *)

(** The [job_data] dictionary of [enqueue_job]: [None] is an absent key. *)
Record job_data := JobData {
  jd_id : string;
  jd_command : string;
  jd_max_retries : option Z;
  jd_timeout : option Z;
  jd_backoff_base : option Z;
  jd_priority : option Z
}.

(** Modelled from the spec: [schema.sql] is not among the sources; the
    columns the INSERT of [enqueue_job] does not list take their default,
    which the spec gives as null ("Creation: insert with ...
    [locked_by=null], [next_retry_at=null]"). *)
Definition new_row (job_id command : string)
    (max_retries timeout backoff_base priority : Z) (now : timestamp) : job :=
  Job job_id command pending 0 max_retries timeout backoff_base priority 0
      None None None None None None now now.

Section enqueue.
(** Python's [int] on a string; [None] when it raises [ValueError]. *)
Variable py_int : string → option Z.

Definition int (v : string) : sql Z :=
  match py_int v with
  | Some n => mret n
  | None => raise ValueError
  end.

Definition enqueue_body (jd : job_data) (now : timestamp) : sql bool :=
  row ← select_config "max-retries";
  default_max_retries ← match row with Some v => int v | None => mret 3 end;
  row ← select_config "backoff-base";
  default_backoff_base ← match row with Some v => int v | None => mret 2 end;
  update_jobs waiting_unlocked set_aged;;
  let job_id := jd_id jd in
  let command := jd_command jd in
  let max_retries := default default_max_retries (jd_max_retries jd) in
  let timeout := default 20 (jd_timeout jd) in
  let backoff_base := default default_backoff_base (jd_backoff_base jd) in
  let priority := default 5 (jd_priority jd) in
  max_retries ← bind_int max_retries;
  timeout ← bind_int timeout;
  backoff_base ← bind_int backoff_base;
  priority ← bind_int priority;
  insert_job (new_row job_id command max_retries timeout backoff_base priority now);;
  commit;;
  mret true.

Definition enqueue_job (jd : job_data) (now : timestamp)
    : database → outcome bool * database :=
  transaction (try_except (enqueue_body jd now) (λ _, mret false)).
End enqueue.

(** The SELECT of [acquire_job]. *)
Definition acquire_select (now : timestamp) : sql (option job) :=
  rows ← select_jobs (eligible now);
  mret (fetchone (limit 1 (order_by rows))).

(** The UPDATE of [acquire_job], its [rowcount] check and the final SELECT. *)
Definition acquire_lock (worker_id : string) (now : timestamp) (job_id : string)
    : sql (option job) :=
  rowcount ← update_jobs (λ j, id j = job_id ∧ locked_by j = None)
                         (set_locked worker_id now);
  commit;;
  if decide (rowcount = 0%nat) then mret None
  else rows ← select_jobs (λ j, id j = job_id); mret (fetchone rows).

Definition acquire_body (worker_id : string) (now : timestamp) : sql (option job) :=
  job ← acquire_select now;
  match job with
  | None => mret None
  | Some job => acquire_lock worker_id now (id job)
  end.

Definition acquire_job (worker_id : string) (now : timestamp)
    : database → outcome (option job) * database :=
  transaction (acquire_body worker_id now).

Definition complete_job (job_id out : string) (execution_time : option Q)
    (now : timestamp) : database → outcome unit * database :=
  transaction (
    update_jobs (λ j, id j = job_id) (set_completed out execution_time now);;
    commit).

(** [now] is the clock reading stored in [updated_at]; [now2] is the second
    reading, the one [next_retry] is computed from.  [delay] is
    [backoff_base ** attempts], the integer power: the exponent is at least
    1 on every row the methods produce, [attempts] being 0 at insertion and
    from then on incremented or reset to 0.  The sum that gives
    [next_retry] raises [OverflowError] when it is not representable, before
    any UPDATE; so does the binding of [attempts] when it does not fit in
    64 bits. *)
Definition fail_job (job_id error_message : string) (execution_time : option Q)
    (now now2 : timestamp) : database → outcome unit * database :=
  transaction (
    rows ← select_jobs (λ j, id j = job_id);
    match fetchone rows with
    | None => mret ()
    | Some job =>
        let attempts := attempts job + 1 in
        let max_retries := max_retries job in
        let backoff_base := backoff_base job in
        (if decide (max_retries ≤ attempts)
         then
           attempts ← bind_int attempts;
           update_jobs (λ j, id j = job_id)
             (set_dead attempts error_message execution_time now)
         else
           let delay := backoff_base ^ attempts in
           next_retry ← datetime_add now2 delay;
           attempts ← bind_int attempts;
           update_jobs (λ j, id j = job_id)
             (set_failed attempts error_message execution_time next_retry now));;
        commit
    end).

Definition get_job (job_id : string) : database → outcome (option job) * database :=
  transaction (rows ← select_jobs (λ j, id j = job_id); mret (fetchone rows)).

Definition retry_dlq_job (job_id : string) (now : timestamp)
    : database → outcome bool * database :=
  transaction (
    rows ← select_jobs (λ j, id j = job_id);
    match fetchone rows with
    | None => mret false
    | Some job =>
        if decide (state job ≠ dead) then mret false
        else
          update_jobs (λ j, id j = job_id) (set_retried now);;
          commit;;
          mret true
    end).

Definition set_config (key value : string) : database → outcome unit * database :=
  transaction (upsert_config key value;; commit).

Definition get_config (key default_value : string)
    : database → outcome string * database :=
  transaction (row ← select_config key; mret (default default_value row)).

Definition delete_job (job_id : string) : database → outcome bool * database :=
  transaction (
    rowcount ← delete_jobs (λ j, id j = job_id);
    commit;;
    mret (bool_decide (0 < rowcount)%nat)).

Definition clear_all_jobs : database → outcome unit * database :=
  transaction (delete_jobs (λ _, True);; commit).

(** ** Sequences of store operations *)

Inductive op :=
  | op_enqueue (jd : job_data) (now : timestamp)
  | op_acquire (worker_id : string) (now : timestamp)
  | op_complete (job_id out : string) (execution_time : option Q) (now : timestamp)
  | op_fail (job_id error_message : string) (execution_time : option Q)
            (now now2 : timestamp)
  | op_dlq_retry (job_id : string) (now : timestamp)
  | op_delete (job_id : string)
  | op_clear.

Section runs.
Variable py_int : string → option Z.

Definition step (d : database) (o : op) : database :=
  match o with
  | op_enqueue jd now => (enqueue_job py_int jd now d).2
  | op_acquire w now => (acquire_job w now d).2
  | op_complete k out t now => (complete_job k out t now d).2
  | op_fail k msg t now now2 => (fail_job k msg t now now2 d).2
  | op_dlq_retry k now => (retry_dlq_job k now d).2
  | op_delete k => (delete_job k d).2
  | op_clear => (clear_all_jobs d).2
  end.

Definition run (ops : list op) (d : database) : database := foldl step d ops.
End runs.

(** ** Vocabulary of the statements *)

(** The row [SELECT * FROM jobs WHERE id = ?] and [fetchone] yield. *)
Definition find_job (job_id : string) (rows : list job) : option job :=
  fetchone (filter (λ j, id j = job_id) rows).

(** The table after [UPDATE jobs SET ... WHERE P]. *)
Definition rewrite_rows (P : job → Prop) `{!∀ j, Decision (P j)}
    (set : job → job) (rows : list job) : list job :=
  (λ j, if decide (P j) then set j else j) <$> rows.

(** The SET clause [fail_job] chooses from the row it read. *)
Definition fail_set (read : job) (msg : string) (t_exec : option Q)
    (now now2 : timestamp) : job → job :=
  if decide (max_retries read ≤ attempts read + 1)
  then set_dead (attempts read + 1) msg t_exec now
  else set_failed (attempts read + 1) msg t_exec
         (now2 + seconds (backoff_base read ^ (attempts read + 1))) now.

(** [fail_job] returns, having read this row: the new [attempts] fits in
    64 bits and, when a retry is scheduled, its time is representable. *)
Definition fail_job_returns (read : job) (now2 : timestamp) : Prop :=
  int64 (attempts read + 1)
  ∧ (max_retries read ≤ attempts read + 1
     ∨ representable now2 (backoff_base read ^ (attempts read + 1))).

#[global] Instance fail_job_returns_dec read now2 :
  Decision (fail_job_returns read now2).
Proof. unfold fail_job_returns. apply _. Defined.

(** The candidate the SELECT of [acquire_job] yields. *)
Definition candidate (now : timestamp) (rows : list job) : option job :=
  fetchone (limit 1 (order_by (filter (eligible now) rows))).

(** The defaults [enqueue_job] reads from the [config] table; [None] when
    [int] raises. *)
Definition config_defaults (py_int : string → option Z)
    (cfg : gmap string string) : option (Z * Z) :=
  m ← match cfg !! "max-retries" with Some v => py_int v | None => Some 3 end;
  b ← match cfg !! "backoff-base" with Some v => py_int v | None => Some 2 end;
  Some (m, b).

(** The row [enqueue_job] inserts, given the configured defaults. *)
Definition enqueued_row (defaults : Z * Z) (jd : job_data) (now : timestamp) : job :=
  new_row (jd_id jd) (jd_command jd)
    (default defaults.1 (jd_max_retries jd)) (default 20 (jd_timeout jd))
    (default defaults.2 (jd_backoff_base jd)) (default 5 (jd_priority jd)) now.

(** The integers [enqueue_job] binds to its INSERT fit in 64 bits. *)
Definition binds (defaults : Z * Z) (jd : job_data) : Prop :=
  int64 (default defaults.1 (jd_max_retries jd))
  ∧ int64 (default 20 (jd_timeout jd))
  ∧ int64 (default defaults.2 (jd_backoff_base jd))
  ∧ int64 (default 5 (jd_priority jd)).

#[global] Instance binds_dec defaults jd : Decision (binds defaults jd).
Proof. unfold binds. apply _. Defined.

(** Two rows that agree on every column but [id] and [created_at]. *)
Definition same_except_id_created_at (a b : job) : Prop :=
  command a = command b ∧ state a = state b ∧ attempts a = attempts b
  ∧ max_retries a = max_retries b ∧ timeout a = timeout b
  ∧ backoff_base a = backoff_base b ∧ priority a = priority b
  ∧ waiting_time a = waiting_time b ∧ next_retry_at a = next_retry_at b
  ∧ locked_by a = locked_by b ∧ locked_at a = locked_at b
  ∧ output a = output b ∧ error_message a = error_message b
  ∧ execution_time a = execution_time b ∧ updated_at a = updated_at b.

(** Two rows that agree on every column but [updated_at]. *)
Definition same_except_updated_at (a b : job) : Prop :=
  id a = id b ∧ command a = command b ∧ state a = state b
  ∧ attempts a = attempts b ∧ max_retries a = max_retries b
  ∧ timeout a = timeout b ∧ backoff_base a = backoff_base b
  ∧ priority a = priority b ∧ waiting_time a = waiting_time b
  ∧ next_retry_at a = next_retry_at b ∧ locked_by a = locked_by b
  ∧ locked_at a = locked_at b ∧ output a = output b
  ∧ error_message a = error_message b ∧ execution_time a = execution_time b
  ∧ created_at a = created_at b.

(** The primary key: no two rows share an [id]. *)
Definition unique_ids (d : database) : Prop := NoDup (id <$> jobs d).

(** [fail_job] finds a job with retries left: the job it reads, if any,
    has [attempts < max_retries] when [max_retries >= 1]. *)
Definition budget_left (job_id : string) (d : database) : Prop :=
  match find_job job_id (jobs d) with
  | Some j => 1 ≤ max_retries j → attempts j < max_retries j
  | None => True
  end.

(** A run in which [fail_job] is never called on a job that has used up
    its retries. *)
Fixpoint fails_within_budget (py_int : string → option Z) (ops : list op)
    (d : database) : Prop :=
  match ops with
  | [] => True
  | o :: ops =>
      match o with
      | op_fail k _ _ _ _ => budget_left k d
      | _ => True
      end
      ∧ fails_within_budget py_int ops (step py_int d o)
  end.

(** A run in which [fail_job] is only called on a job that is pending,
    failed or processing. *)
Fixpoint fails_on_live (py_int : string → option Z) (ops : list op)
    (d : database) : Prop :=
  match ops with
  | [] => True
  | o :: ops =>
      match o with
      | op_fail k _ _ _ _ =>
          match find_job k (jobs d) with
          | Some j => state j = pending ∨ state j = failed ∨ state j = processing
          | None => True
          end
      | _ => True
      end
      ∧ fails_on_live py_int ops (step py_int d o)
  end.

(** Python's [int] on an ASCII decimal numeral with an optional sign. *)
Definition digit (a : ascii) : option Z :=
  let n := Z.of_nat (nat_of_ascii a) in
  if decide (48 ≤ n ≤ 57) then Some (n - 48) else None.

Fixpoint digits (acc : Z) (s : string) : option Z :=
  match s with
  | EmptyString => Some acc
  | String a s => d ← digit a; digits (10 * acc + d) s
  end.

Definition decimal_int (s : string) : option Z :=
  match s with
  | EmptyString => None
  | String "-"%char (String _ _ as s') => Z.opp <$> digits 0 s'
  | String "+"%char (String _ _ as s') => digits 0 s'
  | _ => digits 0 s
  end.

(** A store for the examples: empty tables. *)
Definition empty_store : database := Database [] ∅.

(** ** Invariants of a run *)

#[global] Instance unique_ids_dec d : Decision (unique_ids d).
Proof. unfold unique_ids. apply _. Defined.

(** What a run maintains for each job with [max_retries >= 1]. *)
Definition within_budget (j : job) : Prop :=
  1 ≤ max_retries j →
  attempts j ≤ max_retries j
  ∧ (state j = pending ∨ state j = failed ∨ state j = processing →
     attempts j < max_retries j).

Definition store_ok (d : database) : Prop :=
  unique_ids d ∧ Forall within_budget (jobs d).

(** ** Example stores and runs *)

Definition zero_retries : database :=
  (acquire_job "w1" 2
     (enqueue_job decimal_int (JobData "a" "exit 1" (Some 0) None None None) 1
        empty_store).2).2.

Definition one_processing : database :=
  (acquire_job "w1" 2
     (enqueue_job decimal_int (JobData "a" "exit 1" (Some 3) None (Some 2) None) 1
        empty_store).2).2.

Definition one_completed : database :=
  (complete_job "a" "ok" None 5 one_processing).2.

(** An aged job that failed once with [max_retries = 1]: it is dead. *)
Definition one_dead : database :=
  (fail_job "a" "Exit code 1" (Some (3 # 2)%Q) 5 5
     (acquire_job "w1" 4
        (enqueue_job decimal_int (JobData "b" "echo b" None None None None) 2
           (enqueue_job decimal_int (JobData "a" "exit 1" (Some 1) None None None) 1
              empty_store).2).2).2).2.

Definition two_waiting : database :=
  (enqueue_job decimal_int (JobData "hi" "echo High" None None None (Some 10)) 2
     (enqueue_job decimal_int (JobData "lo" "echo Low" None None None (Some 1)) 1
        empty_store).2).2.

(** A worker's run: a job with [max_retries = 2] fails twice. *)
Definition two_failures : list op :=
  [op_enqueue (JobData "a" "exit 1" (Some 2) None None None) 1;
   op_acquire "w1" 2;
   op_fail "a" "Exit code 1" None 3 3;
   op_acquire "w1" 2000004;
   op_fail "a" "Exit code 1" None 2000005 2000005].

(** A worker's run on a job enqueued with [max_retries = 0]. *)
Definition no_retries_run : list op :=
  [op_enqueue (JobData "a" "exit 1" (Some 0) None None None) 1;
   op_acquire "w1" 2;
   op_fail "a" "Exit code 1" None 3 3].

(** A run that reports a second failure of a job that is already dead. *)
Definition failed_again_run : list op :=
  [op_enqueue (JobData "a" "exit 1" (Some 1) None None None) 1;
   op_acquire "w1" 2;
   op_fail "a" "Exit code 1" None 3 3;
   op_fail "a" "Exit code 1" None 4 4].

(** A run that completes a dead job and then reports its failure. *)
Definition completed_then_failed_run : list op :=
  [op_enqueue (JobData "a" "exit 1" (Some 1) None None None) 1;
   op_acquire "w1" 2;
   op_fail "a" "Exit code 1" None 3 3;
   op_complete "a" "" None 4;
   op_fail "a" "Exit code 1" None 5 5].

(** A clock reading on 2026-11-03. *)
Definition in_2026 : timestamp := 739922 * 86400 * 1000000.

(** A job with [backoff_base = 10^12], acquired: its first retry would be
    due some 31700 years later. *)
Definition huge_backoff : database :=
  (acquire_job "w1" (in_2026 + 2)
     (enqueue_job decimal_int
        (JobData "a" "exit 1" (Some 3) None (Some (10 ^ 12)) None) (in_2026 + 1)
        empty_store).2).2.

(** Four waiting jobs; the priorities of [x] and [y] are near the greatest
    64-bit integer, so that their sums with [waiting_time] leave it. *)
Definition rounded_keys : database :=
  (enqueue_job decimal_int (JobData "q" "echo q" None None None (Some 1)) 4
     (enqueue_job decimal_int (JobData "p" "echo p" None None None (Some 1)) 3
        (enqueue_job decimal_int
           (JobData "y" "echo y" None None None (Some (2 ^ 63 - 1))) 2
           (enqueue_job decimal_int
              (JobData "x" "echo x" None None None (Some (2 ^ 63 - 3))) 1
              empty_store).2).2).2).2.

(** The store the UPDATE of a worker meets when, after its SELECT on
    [two_waiting] at time 3, another worker has acquired [hi] at time 4 and
    completed it at time 5. *)
Definition hi_completed : database :=
  (complete_job "hi" "High" None 5 (acquire_job "w1" 4 two_waiting).2).2.

(** ** Read-only queries of [Storage] *)

(** The text the [state] column holds. *)
Definition state_name (s : job_state) : string :=
  match s with
  | pending => "pending"
  | processing => "processing"
  | completed => "completed"
  | failed => "failed"
  | dead => "dead"
  end.

(** [ORDER BY created_at DESC]: [a] is not placed after [b]. *)
Definition newest_first (a b : job) : Prop := created_at b ≤ created_at a.

#[global] Instance newest_first_dec : RelDecision newest_first.
Proof. intros a b. unfold newest_first. apply _. Defined.

(** [if state:] holds for a string that is not empty; [None] and the
    empty string list every job. *)
Definition list_jobs (state_filter : option string)
    : database → outcome (list job) * database :=
  transaction (
    match state_filter with
    | Some (String _ _ as name) =>
        rows ← select_jobs (λ j, state_name (state j) = name);
        mret (merge_sort newest_first rows)
    | _ =>
        rows ← select_jobs (λ _, True);
        mret (merge_sort newest_first rows)
    end).

Definition list_dlq_jobs : database → outcome (list job) * database :=
  list_jobs (Some "dead").

(** [SELECT state, COUNT( * ) FROM jobs GROUP BY state]: one row for each
    state that occurs. *)
Definition count_by_state : sql (list (string * nat)) :=
  λ c, (Ok ((λ s, (state_name s,
                    length (filter (λ j, state j = s) (jobs (view c)))))
            <$> remove_dups (state <$> jobs (view c))), c).

(** The dictionary [get_status] returns. *)
Record status := Status {
  status_total : nat;
  status_pending : nat;
  status_processing : nat;
  status_completed : nat;
  status_failed : nat;
  status_dead : nat
}.

Definition get_status : database → outcome status * database :=
  transaction (
    rows ← select_jobs (λ _, True);
    let total := length rows in
    groups ← count_by_state;
    let by_state : gmap string nat := list_to_map groups in
    mret (Status total
            (default 0%nat (by_state !! "pending"))
            (default 0%nat (by_state !! "processing"))
            (default 0%nat (by_state !! "completed"))
            (default 0%nat (by_state !! "failed"))
            (default 0%nat (by_state !! "dead")))).

(** ** The worker (src/queuectl/worker.py) *)

(** How [subprocess.run] ends: it returns, or raises [TimeoutExpired], or
    raises another exception whose [str] is [message]. *)
Inductive run_result :=
  | Returned (returncode : Z) (stdout stderr : string)
  | TimeoutExpired
  | OtherException (message : string).

(** What [_execute_job] prints about the next retry before it calls
    [fail_job]: the number of the next attempt and its delay, or nothing
    when it announces the move to the dead-letter queue. *)
Definition retry_notice (job : job) : option (Z * Z) :=
  let next_attempt := attempts job + 2 in
  if decide (next_attempt ≤ max_retries job + 1)
  then Some (next_attempt, backoff_base job ^ (attempts job + 1))
  else None.

(** One report of [_execute_job] to the store: the elapsed time it passes
    and the two clock readings of the store method. *)
Record report := Report {
  elapsed : Q;
  read_now : timestamp;
  read_now2 : timestamp
}.

Section worker.
(** Python's [str.strip]. *)
Variable strip : string → string.

(** [_execute_job], given how the subprocess ended and its report to the
    store.  After the subprocess has returned, the store is called inside
    the [try]: when the call raises, the handler of [Exception] reports a
    failure, with the text of that exception and a report of its own.
    What a handler raises reaches the caller. *)
Definition execute_job (job : job) (result : run_result) (first : report)
    (exception_text : string) (second : report) (d : database)
    : outcome unit * database :=
  let job_id := id job in
  let timeout := timeout job in
  match result with
  | Returned returncode stdout stderr =>
      let tried :=
        if decide (returncode = 0) then
          let output := if decide (stdout = "") then "" else strip stdout in
          complete_job job_id output (Some (elapsed first)) (read_now first) d
        else
          let error_msg := "Exit code " +:+ pretty returncode in
          let error_msg := if decide (stderr = "") then error_msg
                           else error_msg +:+ ": " +:+ strip stderr in
          fail_job job_id error_msg (Some (elapsed first))
            (read_now first) (read_now2 first) d in
      match tried with
      | (Ok r, d') => (Ok r, d')
      | (Raise _, d') =>
          let error_msg := "Exception: " +:+ exception_text in
          fail_job job_id error_msg (Some (elapsed second))
            (read_now second) (read_now2 second) d'
      end
  | TimeoutExpired =>
      let error_msg := "Timeout exceeded (" +:+ pretty timeout +:+ "s)" in
      fail_job job_id error_msg (Some (elapsed first))
        (read_now first) (read_now2 first) d
  | OtherException message =>
      let error_msg := "Exception: " +:+ message in
      fail_job job_id error_msg (Some (elapsed first))
        (read_now first) (read_now2 first) d
  end.

(** One turn of the loop of [Worker.run]: acquire a job and execute it, or
    count an idle poll.  When [_execute_job] raises, the loop prints the
    error and goes on, [poll_count] as it was.  The result is the new
    [poll_count] and the store. *)
Definition poll (worker_id : string) (poll_count : nat) (acquired_at : timestamp)
    (result : run_result) (first : report) (exception_text : string)
    (second : report) (d : database) : nat * database :=
  match acquire_job worker_id acquired_at d with
  | (Ok (Some job), d1) =>
      match execute_job job result first exception_text second d1 with
      | (Ok _, d2) => (0%nat, d2)
      | (Raise _, d2) => (poll_count, d2)
      end
  | (Ok None, d1) => (S poll_count, d1)
  | (Raise _, d1) => (poll_count, d1)
  end.

(** The turn reported to the store: it acquired no job, or [_execute_job]
    returned. *)
Definition poll_reported (worker_id : string) (acquired_at : timestamp)
    (result : run_result) (first : report) (exception_text : string)
    (second : report) (d : database) : Prop :=
  match acquire_job worker_id acquired_at d with
  | (Ok (Some job), d1) =>
      (execute_job job result first exception_text second d1).1 = Ok ()
  | _ => True
  end.
End worker.

(** [_execute_job] returns, on a job the store holds: the command has
    exited with code 0, or [fail_job] accepts a report of the failure: the
    first, or after a non-zero exit code the one the handler makes. *)
Definition execute_job_returns (job : job) (result : run_result)
    (first second : report) : Prop :=
  match result with
  | Returned returncode _ _ =>
      returncode = 0
      ∨ fail_job_returns job (read_now2 first)
      ∨ fail_job_returns job (read_now2 second)
  | _ => fail_job_returns job (read_now2 first)
  end.

#[global] Instance execute_job_returns_dec job result first second :
  Decision (execute_job_returns job result first second).
Proof. unfold execute_job_returns. destruct result; apply _. Defined.

(** ** The command line (src/queuectl.py) *)

Section cli.
Variable py_int : string → option Z.

(** The [enqueue] command: the options not given take click's defaults
    and every key of [job_data] is present.  The result is the exit code. *)
Definition cli_enqueue (job_id command : string)
    (max_retries timeout backoff_base priority : option Z) (now : timestamp)
    (d : database) : Z * database :=
  let job_data :=
    JobData job_id command
      (Some (default 3 max_retries)) (Some (default 20 timeout))
      (Some (default 2 backoff_base)) (Some (default 5 priority)) in
  match enqueue_job py_int job_data now d with
  | (Ok true, d') => (0, d')
  | (_, d') => (1, d')
  end.
End cli.

(** The [config get] command: the exit code. *)
Definition cli_config_get (key : string) (d : database) : Z :=
  match get_config key "" d with
  | (Ok value, _) => if decide (value = "") then 1 else 0
  | (Raise _, _) => 1
  end.

(** ** Runs of producers and workers *)

Inductive worker_op :=
  | w_enqueue (jd : job_data) (now : timestamp)
  | w_poll (worker_id : string) (acquired_at : timestamp) (result : run_result)
           (first : report) (exception_text : string) (second : report).

Section worker_runs.
Variable py_int : string → option Z.
Variable strip : string → string.

Definition worker_step (d : database) (o : worker_op) : database :=
  match o with
  | w_enqueue jd now => (enqueue_job py_int jd now d).2
  | w_poll w t result first text second =>
      (poll strip w 0 t result first text second d).2
  end.

Definition worker_run (ops : list worker_op) (d : database) : database :=
  foldl worker_step d ops.

(** A run in which every turn of the worker reported to the store. *)
Fixpoint turns_reported (ops : list worker_op) (d : database) : Prop :=
  match ops with
  | [] => True
  | o :: ops =>
      match o with
      | w_poll w t result first text second =>
          poll_reported strip w t result first text second d
      | w_enqueue _ _ => True
      end
      ∧ turns_reported ops (worker_step d o)
  end.
End worker_runs.

(** What the store keeps between the state of a job and its lock,
    [next_retry_at] and [error_message]. *)
Definition lock_consistent (j : job) : Prop :=
  (state j = processing ↔ is_Some (locked_by j))
  ∧ (is_Some (locked_by j) ↔ is_Some (locked_at j))
  ∧ (state j = pending → next_retry_at j = None)
  ∧ (state j = failed → is_Some (next_retry_at j) ∧ is_Some (error_message j))
  ∧ (state j = dead → next_retry_at j = None ∧ is_Some (error_message j))
  ∧ (state j = completed → is_Some (output j)).

(** The successful enqueues of a list of jobs, one after the other. *)
Fixpoint enqueue_all (py_int : string → option Z) (jds : list (job_data * timestamp))
    (d : database) : option database :=
  match jds with
  | [] => Some d
  | (jd, now) :: jds =>
      match enqueue_job py_int jd now d with
      | (Ok true, d') => enqueue_all py_int jds d'
      | _ => None
      end
  end.

(** The count [get_status] reports for a state. *)
Definition status_count (st : status) (s : job_state) : nat :=
  match s with
  | pending => status_pending st
  | processing => status_processing st
  | completed => status_completed st
  | failed => status_failed st
  | dead => status_dead st
  end.

(** A job no worker holds. *)
Definition idle (j : job) : Prop := state j ≠ processing ∧ locked_by j = None.

(** A dead job has used exactly its retry budget, when it has one. *)
Definition dead_exact (j : job) : Prop :=
  1 ≤ max_retries j → state j = dead → attempts j = max_retries j.

(** A run of one producer and one worker: [a] fails with its single
    attempt, then [b] succeeds. *)
Definition worker_day : list worker_op :=
  [w_enqueue (JobData "a" "exit 1" (Some 1) None None None) 1;
   w_enqueue (JobData "b" "echo ok" None None None None) 2;
   w_poll "w1" 3 (Returned 1 "" "boom") (Report (1 # 10) 4 4) ""
          (Report (1 # 10) 4 4);
   w_poll "w1" 5 (Returned 0 "ok" "") (Report (1 # 10) 6 6) ""
          (Report (1 # 10) 6 6)].

(** A worker's turn on a job whose retry time is not representable. *)
Definition stuck_day : list worker_op :=
  [w_enqueue (JobData "a" "exit 1" (Some 3) None (Some (10 ^ 12)) None)
     (in_2026 + 1);
   w_poll "w1" (in_2026 + 2) (Returned 1 "" "boom")
          (Report (1 # 10) (in_2026 + 3) (in_2026 + 4)) "date value out of range"
          (Report (1 # 10) (in_2026 + 5) (in_2026 + 6))].

(** * Properties *)

(** ** Rows and their keys *)

Lemma find_job_Some_id k rows j : find_job k rows = Some j → id j = k.
Proof.
  unfold find_job, fetchone. intros H.
  apply head_Some_elem_of, list_elem_of_filter in H. tauto.
Qed.

Lemma find_job_elem_of k rows j : find_job k rows = Some j → j ∈ rows.
Proof.
  unfold find_job, fetchone. intros H.
  apply head_Some_elem_of, list_elem_of_filter in H. tauto.
Qed.

Lemma find_job_None k rows : find_job k rows = None ↔ ∀ j, j ∈ rows → id j ≠ k.
Proof.
  unfold find_job, fetchone. rewrite head_None. split.
  - intros H j Hj Hk.
    assert (j ∈ filter (λ j, id j = k) rows) as Hin by (apply list_elem_of_filter; done).
    rewrite H in Hin. by apply not_elem_of_nil in Hin.
  - intros H. induction rows as [|j rows IH]; [done|].
    rewrite filter_cons. destruct (decide (id j = k)) as [Hk|_].
    + exfalso. by apply (H j); [left|].
    + apply IH. intros j' ?. apply H. by right.
Qed.

Lemma find_job_fmap (g : job → job) k rows :
  (∀ j, id (g j) = id j) →
  find_job k (g <$> rows) = g <$> find_job k rows.
Proof.
  intros Hg. unfold find_job, fetchone. induction rows as [|j rows IH]; [done|].
  rewrite fmap_cons, !filter_cons, Hg.
  destruct (decide (id j = k)); simpl; [done|]. apply IH.
Qed.

Lemma find_job_rewrite k k' set rows :
  (∀ j, id (set j) = id j) →
  find_job k' (rewrite_rows (λ j, id j = k) set rows)
  = if decide (k' = k) then set <$> find_job k' rows else find_job k' rows.
Proof.
  intros Hset. unfold rewrite_rows. rewrite find_job_fmap.
  - destruct (find_job k' rows) as [j|] eqn:Hj; simpl.
    + apply find_job_Some_id in Hj. subst k'.
      destruct (decide (id j = k)); by repeat case_decide.
    + by case_decide.
  - intros j. by case_decide.
Qed.

Lemma find_job_unique rows j :
  NoDup (id <$> rows) → j ∈ rows → find_job (id j) rows = Some j.
Proof.
  unfold find_job, fetchone. induction rows as [|r rows IH]; intros Hnd Hj.
  - by apply elem_of_nil in Hj.
  - rewrite fmap_cons in Hnd. apply NoDup_cons in Hnd as [Hr Hnd].
    rewrite filter_cons. apply elem_of_cons in Hj as [->|Hj].
    + by rewrite decide_True.
    + rewrite decide_False; [by apply IH|].
      intros Heq. apply Hr. rewrite Heq. by apply list_elem_of_fmap_2.
Qed.

Lemma rewrite_rows_ids P `{!∀ j, Decision (P j)} set rows :
  (∀ j, id (set j) = id j) →
  id <$> rewrite_rows P set rows = id <$> rows.
Proof.
  intros Hset. unfold rewrite_rows. rewrite <-list_fmap_compose.
  apply list_fmap_ext. intros _ j _. simpl. by case_decide.
Qed.

Lemma rewrite_rows_lookup P `{!∀ j, Decision (P j)} set rows i :
  rewrite_rows P set rows !! i
  = (λ j, if decide (P j) then set j else j) <$> rows !! i.
Proof. unfold rewrite_rows. apply list_lookup_fmap. Qed.

(** ** The methods in closed form *)

Lemma get_job_eq k d : get_job k d = (Ok (find_job k (jobs d)), d).
Proof. reflexivity. Qed.

Lemma complete_job_eq k out t now d :
  complete_job k out t now d
  = (Ok (), Database (rewrite_rows (λ j, id j = k) (set_completed out t now) (jobs d))
                     (config d)).
Proof. reflexivity. Qed.

Lemma fail_job_eq k msg t now now2 d :
  fail_job k msg t now now2 d
  = match find_job k (jobs d) with
    | None => (Ok (), d)
    | Some read =>
        if decide (fail_job_returns read now2)
        then (Ok (), Database (rewrite_rows (λ j, id j = k)
                                 (fail_set read msg t now now2) (jobs d))
                              (config d))
        else (Raise OverflowError, d)
    end.
Proof.
  unfold fail_job, transaction, find_job, fail_set, fail_job_returns,
    datetime_add, bind_int, mbind, sql_bind, bind, select_jobs, raise, mret,
    sql_ret, ret.
  cbn. destruct (fetchone _) as [read|]; [|done].
  cbn. destruct (decide (max_retries read ≤ attempts read + 1)) as [Hmax|Hmax].
  - destruct (decide (int64 (attempts read + 1))) as [Hint|Hint]; cbn.
    + by rewrite decide_True by tauto.
    + by rewrite decide_False by tauto.
  - destruct (decide (representable now2 (backoff_base read ^ (attempts read + 1))))
      as [Hrep|Hrep]; cbn.
    + destruct (decide (int64 (attempts read + 1))) as [Hint|Hint]; cbn.
      * by rewrite decide_True by tauto.
      * by rewrite decide_False by tauto.
    + by rewrite decide_False by tauto.
Qed.

Lemma retry_dlq_job_eq k now d :
  retry_dlq_job k now d
  = match find_job k (jobs d) with
    | Some j =>
        if decide (state j = dead)
        then (Ok true, Database (rewrite_rows (λ j, id j = k) (set_retried now) (jobs d))
                                (config d))
        else (Ok false, d)
    | None => (Ok false, d)
    end.
Proof.
  unfold retry_dlq_job, transaction, find_job, mbind, sql_bind, bind,
    select_jobs. cbn.
  destruct (fetchone _) as [j|]; [|done].
  destruct (decide (state j = dead)); [rewrite decide_False by tauto|rewrite decide_True by done];
    reflexivity.
Qed.

Lemma delete_job_eq k d :
  (delete_job k d).2 = Database (filter (λ j, ¬ id j = k) (jobs d)) (config d).
Proof. reflexivity. Qed.

Lemma clear_all_jobs_eq d :
  (clear_all_jobs d).2 = Database (filter (λ _, ¬ True) (jobs d)) (config d).
Proof. reflexivity. Qed.

Lemma fail_set_id read msg t now now2 j : id (fail_set read msg t now now2 j) = id j.
Proof. unfold fail_set. by case_decide. Qed.

(** ** Completion and failure *)

(** The row [job_id] after a [fail_job] that returns. *)
Lemma fail_job_find k msg t now now2 d j :
  find_job k (jobs d) = Some j →
  fail_job_returns j now2 →
  find_job k (jobs (fail_job k msg t now now2 d).2)
  = Some (fail_set j msg t now now2 j).
Proof.
  intros Hj Hret. rewrite fail_job_eq, Hj, decide_True by done. simpl.
  rewrite find_job_rewrite by apply fail_set_id.
  by rewrite decide_True, Hj.
Qed.

(** [fail_job] returns exactly under [fail_job_returns]; otherwise it
    raises and the store is as it was. *)
Lemma fail_job_outcome k msg t now now2 d j :
  find_job k (jobs d) = Some j →
  ((fail_job k msg t now now2 d).1 = Ok () ↔ fail_job_returns j now2)
  ∧ (¬ fail_job_returns j now2 →
       fail_job k msg t now now2 d = (Raise OverflowError, d)).
Proof.
  intros Hj. rewrite fail_job_eq, Hj. by case_decide.
Qed.

Lemma complete_job_find k out t now d j :
  find_job k (jobs d) = Some j →
  find_job k (jobs (complete_job k out t now d).2) = Some (set_completed out t now j).
Proof.
  intros Hj. rewrite complete_job_eq. simpl.
  rewrite find_job_rewrite by done. by rewrite decide_True, Hj.
Qed.

Lemma rewrite_rows_absent k set rows :
  find_job k rows = None → rewrite_rows (λ j, id j = k) set rows = rows.
Proof.
  rewrite find_job_None. intros H. unfold rewrite_rows.
  rewrite <-(list_fmap_id rows) at 2. apply list_fmap_ext.
  intros i j Hj. rewrite decide_False; [done|].
  apply H. by eapply list_elem_of_lookup_2.
Qed.

(** C10, as amended: [complete_job] and [fail_job] look at neither the
    state nor the lock of the row.  Whatever the state and the lock of an
    existing job, [complete_job] leaves it completed and unlocked, and
    [fail_job], when it returns, has counted one more attempt and left it
    dead or failed, unlocked; it returns when the new [attempts] fits in 64
    bits and the job becomes dead or its retry time is representable.  When
    no row has the id, both leave the store as it was. *)
Theorem complete_fail_unconditional k out msg t now now2 d :
  match (get_job k d).1 with
  | Ok (Some j) =>
      (∃ j', (get_job k (complete_job k out t now d).2).1 = Ok (Some j')
             ∧ state j' = completed ∧ output j' = Some out
             ∧ execution_time j' = t
             ∧ locked_by j' = None ∧ locked_at j' = None)
      ∧ ((fail_job k msg t now now2 d).1 = Ok ()
         ↔ int64 (attempts j + 1)
           ∧ (max_retries j ≤ attempts j + 1
              ∨ representable now2 (backoff_base j ^ (attempts j + 1))))
      ∧ ((fail_job k msg t now now2 d).1 = Ok () →
         ∃ j', (get_job k (fail_job k msg t now now2 d).2).1 = Ok (Some j')
               ∧ attempts j' = attempts j + 1
               ∧ state j' = (if decide (max_retries j ≤ attempts j + 1)
                             then dead else failed)
               ∧ error_message j' = Some msg
               ∧ locked_by j' = None ∧ locked_at j' = None)
  | Ok None =>
      complete_job k out t now d = (Ok (), d)
      ∧ fail_job k msg t now now2 d = (Ok (), d)
  | Raise _ => False
  end.
Proof.
  rewrite !get_job_eq. cbn [fst].
  destruct (find_job k (jobs d)) as [j|] eqn:Hj.
  - destruct (fail_job_outcome k msg t now now2 d j Hj) as [Hret _].
    split; [|split; [done|]].
    + exists (set_completed out t now j).
      by rewrite (complete_job_find _ _ _ _ _ j).
    + intros Hok%Hret. exists (fail_set j msg t now now2 j).
      rewrite (fail_job_find _ _ _ _ _ _ j) by done.
      unfold fail_set. by case_decide.
  - rewrite complete_job_eq, fail_job_eq, Hj, rewrite_rows_absent by done.
    by destruct d.
Qed.

(** C10 as stated fails: on an existing job whose retry time is not
    representable [fail_job] raises [OverflowError] and is a no-op: the job
    keeps its state and its attempts. *)
Lemma fail_job_no_op_on_existing_job :
  (get_job "a" huge_backoff).1
    = Ok (Some (set_locked "w1" (in_2026 + 2)
                  (new_row "a" "exit 1" 3 20 (10 ^ 12) 5 (in_2026 + 1))))
  ∧ fail_job "a" "Exit code 1" None (in_2026 + 3) (in_2026 + 4) huge_backoff
    = (Raise OverflowError, huge_backoff).
Proof. split; reflexivity. Qed.

(** C3, as amended: a [fail_job] on an existing job that returns has
    counted one more attempt; with [attempts + 1 >= max_retries] the job is
    dead, the error and the execution time are recorded and [next_retry_at]
    and the lock are cleared; otherwise it is failed, with [next_retry_at]
    set and the lock cleared.  So the job is dead exactly when the new
    [attempts] reaches [max_retries], never before; and the new [attempts]
    equals [max_retries] when [attempts] was below [max_retries] before the
    call.  The call returns when the new [attempts] fits in 64 bits and the
    job becomes dead or its retry time is representable. *)
Theorem fail_job_transition k msg t now now2 d j :
  (get_job k d).1 = Ok (Some j) →
  ((fail_job k msg t now now2 d).1 = Ok ()
   ↔ int64 (attempts j + 1)
     ∧ (max_retries j ≤ attempts j + 1
        ∨ representable now2 (backoff_base j ^ (attempts j + 1))))
  ∧ ((fail_job k msg t now now2 d).1 = Ok () →
     ∃ j', (get_job k (fail_job k msg t now now2 d).2).1 = Ok (Some j')
       ∧ attempts j' = attempts j + 1
       ∧ max_retries j' = max_retries j
       ∧ (max_retries j ≤ attempts j + 1 →
            state j' = dead ∧ error_message j' = Some msg
            ∧ execution_time j' = t
            ∧ next_retry_at j' = None ∧ locked_by j' = None
            ∧ locked_at j' = None)
       ∧ (attempts j + 1 < max_retries j →
            state j' = failed ∧ is_Some (next_retry_at j')
            ∧ locked_by j' = None ∧ locked_at j' = None)
       ∧ (state j' = dead ↔ max_retries j' ≤ attempts j')
       ∧ (attempts j < max_retries j →
            (state j' = dead ↔ attempts j' = max_retries j'))).
Proof.
  rewrite !get_job_eq. cbn [fst]. intros [= Hj].
  destruct (fail_job_outcome k msg t now now2 d j Hj) as [Hret _].
  split; [done|]. intros Hok%Hret.
  exists (fail_set j msg t now now2 j).
  rewrite (fail_job_find _ _ _ _ _ _ j) by done.
  unfold fail_set. case_decide; simpl; repeat split; try done; try lia; eauto.
Qed.

Lemma fail_job_transition_witness :
  (get_job "a" one_processing).1
    = Ok (Some (set_locked "w1" 2 (new_row "a" "exit 1" 3 20 2 5 1)))
  ∧ (fail_job "a" "Exit code 1" None 3 4 one_processing).1 = Ok ()
  ∧ ∃ j', (get_job "a" (fail_job "a" "Exit code 1" None 3 4 one_processing).2).1
          = Ok (Some j')
      ∧ attempts j' = 1 ∧ max_retries j' = 3 ∧ state j' = failed.
Proof.
  split; [reflexivity|]. split; [reflexivity|].
  destruct (fail_job_transition "a" "Exit code 1" None 3 4 one_processing
              (set_locked "w1" 2 (new_row "a" "exit 1" 3 20 2 5 1)) eq_refl)
    as [_ Hstep].
  destruct (Hstep eq_refl) as (j' & Hget & Hatt & Hmax & _ & Hfailed & _).
  exists j'. split; [exact Hget|]. split; [exact Hatt|]. split; [exact Hmax|].
  apply Hfailed. simpl. lia.
Defined.

(** C3 as stated fails: with [max_retries = 0] the first failure leaves the
    job dead with one failed attempt, not [max_retries] of them; and with a
    retry time that is not representable the failure is not counted: the
    call raises and the job keeps its attempts and its state. *)
Lemma fail_job_dead_beyond_max_retries :
  (∃ j', (get_job "a" (fail_job "a" "Exit code 1" None 3 4 zero_retries).2).1
         = Ok (Some j')
     ∧ state j' = dead ∧ attempts j' = 1 ∧ max_retries j' = 0
     ∧ ¬ (state j' = dead ↔ attempts j' = max_retries j'))
  ∧ (∃ j j',
       (get_job "a" huge_backoff).1 = Ok (Some j)
       ∧ attempts j + 1 < max_retries j
       ∧ (get_job "a"
            (fail_job "a" "Exit code 1" None (in_2026 + 3) (in_2026 + 4)
               huge_backoff).2).1 = Ok (Some j')
       ∧ attempts j' = attempts j ∧ state j' = processing).
Proof.
  split.
  - eexists. split; [vm_compute; reflexivity|]. simpl.
    repeat split; try done. intros [H _]. by specialize (H eq_refl).
  - eexists. eexists. split; [vm_compute; reflexivity|].
    split; [simpl; lia|]. split; [vm_compute; reflexivity|]. done.
Qed.

(** C4, as amended: when the k-th failure (1 <= k < max_retries) is
    recorded, [next_retry_at] is the second clock reading plus
    [backoff_base ^ k] seconds, while [updated_at] is the first reading; so
    [next_retry_at - updated_at] is [backoff_base ^ k] seconds plus the time
    between the two readings, and exactly [backoff_base ^ k] seconds when
    the readings coincide. *)
Theorem fail_job_backoff k msg t now now2 d j :
  (get_job k d).1 = Ok (Some j) →
  1 ≤ attempts j + 1 < max_retries j →
  (fail_job k msg t now now2 d).1 = Ok () →
  ∃ j' retry_at,
    (get_job k (fail_job k msg t now now2 d).2).1 = Ok (Some j')
    ∧ attempts j' = attempts j + 1
    ∧ next_retry_at j' = Some retry_at
    ∧ updated_at j' = now
    ∧ retry_at = now2 + seconds (backoff_base j' ^ attempts j')
    ∧ retry_at - updated_at j'
      = seconds (backoff_base j' ^ attempts j') + (now2 - now)
    ∧ (now2 = now →
         retry_at - updated_at j' = seconds (backoff_base j' ^ attempts j')).
Proof.
  rewrite !get_job_eq. cbn [fst]. intros [= Hj] Hk Hok.
  apply (fail_job_outcome k msg t now now2 d j Hj) in Hok.
  exists (fail_set j msg t now now2 j). eexists.
  rewrite (fail_job_find _ _ _ _ _ _ j) by done.
  unfold fail_set. rewrite decide_False by lia. simpl.
  repeat split; try done; lia.
Qed.

Lemma fail_job_backoff_witness :
  (get_job "a" one_processing).1
    = Ok (Some (set_locked "w1" 2 (new_row "a" "exit 1" 3 20 2 5 1)))
  ∧ ∃ j' retry_at,
    (get_job "a" (fail_job "a" "Exit code 1" None 10 10 one_processing).2).1
      = Ok (Some j')
    ∧ attempts j' = 1
    ∧ next_retry_at j' = Some retry_at
    ∧ updated_at j' = 10
    ∧ retry_at = 10 + seconds (backoff_base j' ^ attempts j')
    ∧ retry_at - updated_at j'
      = seconds (backoff_base j' ^ attempts j') + (10 - 10)
    ∧ (10 = 10 →
         retry_at - updated_at j' = seconds (backoff_base j' ^ attempts j')).
Proof.
  split; [reflexivity|].
  apply (fail_job_backoff "a" "Exit code 1" None 10 10 one_processing
           (set_locked "w1" 2 (new_row "a" "exit 1" 3 20 2 5 1)));
    [reflexivity | simpl; lia | reflexivity].
Defined.

(** C4 as stated fails: the clock is read a second time for
    [next_retry_at]; one microsecond between the readings shows in the
    difference. *)
Lemma fail_job_backoff_not_exact :
  ∃ j' retry_at,
    (get_job "a" (fail_job "a" "Exit code 1" None 10 11 one_processing).2).1
      = Ok (Some j')
    ∧ attempts j' = 1 ∧ max_retries j' = 3 ∧ backoff_base j' = 2
    ∧ next_retry_at j' = Some retry_at
    ∧ retry_at - updated_at j' = 2000001
    ∧ retry_at - updated_at j' ≠ seconds (backoff_base j' ^ attempts j').
Proof.
  eexists. eexists. split; [vm_compute; reflexivity|]. simpl.
  repeat split; done.
Qed.

(** ** Idempotence of completion *)

Lemma rewrite_rows_twice k (f g : job → job) rows :
  (∀ j, id (f j) = id j) → (∀ j, g (f j) = g j) →
  rewrite_rows (λ j, id j = k) g (rewrite_rows (λ j, id j = k) f rows)
  = rewrite_rows (λ j, id j = k) g rows.
Proof.
  intros Hf Hg. unfold rewrite_rows. rewrite <-list_fmap_compose.
  apply list_fmap_ext. intros _ j _. simpl.
  destruct (decide (id j = k)) as [Hk|Hk].
  - by rewrite decide_True, Hg by (by rewrite Hf).
  - by rewrite decide_False.
Qed.

Lemma same_except_updated_at_refl j : same_except_updated_at j j.
Proof. by repeat split. Qed.

(** C9, as amended: completing a job a second time with the same
    arguments changes nothing but its [updated_at], which takes the time of
    the second call: the store is the one a single call at that time
    produces, and it is the same store when both calls read the same time. *)
Theorem complete_job_idempotent k out t now1 now2 d :
  complete_job k out t now2 (complete_job k out t now1 d).2
    = complete_job k out t now2 d
  ∧ complete_job k out t now1 (complete_job k out t now1 d).2
    = complete_job k out t now1 d
  ∧ config (complete_job k out t now2 (complete_job k out t now1 d).2).2
    = config (complete_job k out t now1 d).2
  ∧ Forall2 same_except_updated_at
      (jobs (complete_job k out t now1 d).2)
      (jobs (complete_job k out t now2 (complete_job k out t now1 d).2).2).
Proof.
  assert (∀ n1 n2, complete_job k out t n2 (complete_job k out t n1 d).2
                   = complete_job k out t n2 d) as Htwice.
  { intros n1 n2. rewrite !complete_job_eq. simpl.
    by rewrite rewrite_rows_twice. }
  split; [apply Htwice|]. split; [apply Htwice|]. split; [done|].
  rewrite Htwice, !complete_job_eq. simpl. unfold rewrite_rows.
  apply Forall2_fmap, Forall_Forall2_diag, Forall_forall. intros j _.
  case_decide; [by repeat split|apply same_except_updated_at_refl].
Qed.

(** C9 as stated fails: a second call at a later time leaves a store that
    differs, in [updated_at], from the store the first call left. *)
Lemma complete_job_twice_differs :
  (complete_job "a" "ok" None 6 one_completed).2 ≠ one_completed
  ∧ (updated_at <$> jobs one_completed) = [5]
  ∧ (updated_at <$> jobs (complete_job "a" "ok" None 6 one_completed).2) = [6].
Proof.
  split; [|split; reflexivity].
  intros H. apply (f_equal (λ d, updated_at <$> jobs d)) in H.
  vm_compute in H. discriminate.
Qed.

(** ** Retry from the dead-letter queue *)

(** C5, as amended: on a dead job [retry_dlq_job] succeeds and sets
    [state = pending], [attempts = 0], clears [error_message],
    [next_retry_at], [locked_by] and [locked_at], refreshes [updated_at] and
    keeps every other column, [waiting_time], [output] and [execution_time]
    included; the row is that of a fresh job but for [id] and [created_at]
    when these three hold a fresh job's values.  On a job that is not dead,
    or on no job, it returns false and the store is as it was. *)
Theorem retry_dlq_job_resets k now d :
  match (get_job k d).1 with
  | Ok (Some j) =>
      if decide (state j = dead) then
        ∃ d' j',
          retry_dlq_job k now d = (Ok true, d')
          ∧ (get_job k d').1 = Ok (Some j')
          ∧ state j' = pending ∧ attempts j' = 0 ∧ error_message j' = None
          ∧ next_retry_at j' = None ∧ locked_by j' = None ∧ locked_at j' = None
          ∧ updated_at j' = now
          ∧ id j' = id j ∧ command j' = command j
          ∧ max_retries j' = max_retries j ∧ timeout j' = timeout j
          ∧ backoff_base j' = backoff_base j ∧ priority j' = priority j
          ∧ created_at j' = created_at j
          ∧ waiting_time j' = waiting_time j ∧ output j' = output j
          ∧ execution_time j' = execution_time j
          ∧ (waiting_time j = 0 → output j = None → execution_time j = None →
               same_except_id_created_at j'
                 (new_row (id j) (command j) (max_retries j) (timeout j)
                    (backoff_base j) (priority j) now))
      else retry_dlq_job k now d = (Ok false, d)
  | Ok None => retry_dlq_job k now d = (Ok false, d)
  | Raise _ => False
  end.
Proof.
  rewrite get_job_eq, retry_dlq_job_eq. cbn [fst].
  destruct (find_job k (jobs d)) as [j|] eqn:Hj; [|done].
  case_decide; [|done].
  eexists. exists (set_retried now j). split; [done|].
  rewrite get_job_eq. cbn [fst jobs].
  rewrite find_job_rewrite, decide_True, Hj by done.
  repeat split; try done.
  all: simpl; intros; by symmetry.
Qed.

(** C5 as stated fails: the retried job keeps the [waiting_time] and the
    [execution_time] it had, which no freshly enqueued job has. *)
Lemma retry_dlq_job_not_fresh :
  ∃ d' j',
    retry_dlq_job "a" 9 one_dead = (Ok true, d')
    ∧ (get_job "a" d').1 = Ok (Some j')
    ∧ waiting_time j' = 1 ∧ execution_time j' = Some (3 # 2)%Q
    ∧ ∀ job_id cmd retries tmo base prio t,
        ¬ same_except_id_created_at j' (new_row job_id cmd retries tmo base prio t).
Proof.
  eexists. eexists. split; [vm_compute; reflexivity|].
  split; [vm_compute; reflexivity|]. simpl.
  repeat split. intros ??????? H. unfold same_except_id_created_at in H.
  simpl in H. destruct H as (_ & _ & _ & _ & _ & _ & _ & Hw & _). done.
Qed.

(** ** Enqueue *)

Lemma enqueue_job_eq py_int jd now d :
  enqueue_job py_int jd now d
  = match config_defaults py_int (config d) with
    | None => (Ok false, d)
    | Some defaults =>
        if decide (binds defaults jd) then
          if decide (Exists (λ j, id j = jd_id jd) (jobs d))
          then (Ok false, d)
          else (Ok true,
                Database (rewrite_rows waiting_unlocked set_aged (jobs d)
                          ++ [enqueued_row defaults jd now]) (config d))
        else (Ok false, d)
    end.
Proof.
  destruct d as [rows cfg].
  unfold enqueue_job, transaction, try_except, enqueue_body, config_defaults,
    int, mbind, sql_bind, bind, select_config, raise, mret, sql_ret, ret,
    option_bind.
  cbn.
  destruct (cfg !! "max-retries") as [v1|]; [destruct (py_int v1) as [m|]|];
    cbn; try reflexivity.
  all: destruct (cfg !! "backoff-base") as [v2|]; [destruct (py_int v2) as [b|]|];
    cbn; try reflexivity.
  all: unfold binds, bind_int, raise, mret, sql_ret, ret; cbn.
  all: destruct (decide (int64 (default _ (jd_max_retries jd)))); cbn;
    [|rewrite decide_False by tauto; reflexivity].
  all: destruct (decide (int64 (default _ (jd_timeout jd)))); cbn;
    [|rewrite decide_False by tauto; reflexivity].
  all: destruct (decide (int64 (default _ (jd_backoff_base jd)))); cbn;
    [|rewrite decide_False by tauto; reflexivity].
  all: destruct (decide (int64 (default _ (jd_priority jd)))); cbn;
    [|rewrite decide_False by tauto; reflexivity].
  all: rewrite (decide_True (P := _ ∧ _)) by done.
  all: unfold insert_job, enqueued_row; cbn.
  all: match goal with
       | |- context [decide (Exists ?P (?f <$> ?l))] =>
           destruct (decide (Exists P (f <$> l))) as [Hex|Hex];
           [rewrite decide_True; [done|]|rewrite decide_False; [done|]]
       end.
  all: revert Hex; rewrite !Exists_exists; setoid_rewrite list_elem_of_fmap.
  all: try (intros (j' & (j & -> & Hj) & Hid); exists j; split; [done|];
            revert Hid; by case_decide).
  all: intros Hex (j & Hj & Hid); apply Hex;
    exists (if decide (waiting_unlocked j) then set_aged j else j);
    (split; [by exists j|by case_decide]).
Qed.

Lemma find_job_Exists k rows :
  is_Some (find_job k rows) ↔ Exists (λ j, id j = k) rows.
Proof.
  rewrite Exists_exists. split.
  - intros [j Hj]. exists j. eauto using find_job_elem_of, find_job_Some_id.
  - intros (j & Hj & Hk). destruct (find_job k rows) eqn:Hf; [done|].
    rewrite find_job_None in Hf. by destruct (Hf j Hj).
Qed.

(** C6: a successful [enqueue_job] adds 1 to the [waiting_time] of every
    job that is pending or failed and not locked, leaves every other job
    (processing, completed, dead, or locked) as it was, changes no other
    column of the jobs it ages, and appends the new job: pending, no
    attempts, [waiting_time = 0], no lock, no [next_retry_at]. *)
Theorem enqueue_job_aging py_int jd now d d' :
  enqueue_job py_int jd now d = (Ok true, d') →
  config d' = config d
  ∧ length (jobs d') = S (length (jobs d))
  ∧ (∀ i j, jobs d !! i = Some j →
       ∃ j', jobs d' !! i = Some j'
         ∧ ((state j = pending ∨ state j = failed) → locked_by j = None →
              waiting_time j' = waiting_time j + 1)
         ∧ (state j = processing ∨ state j = completed ∨ state j = dead
            ∨ locked_by j ≠ None → j' = j)
         ∧ j' = Job (id j) (command j) (state j) (attempts j) (max_retries j)
                  (timeout j) (backoff_base j) (priority j) (waiting_time j')
                  (next_retry_at j) (locked_by j) (locked_at j) (output j)
                  (error_message j) (execution_time j) (created_at j)
                  (updated_at j))
  ∧ ∃ new, jobs d' !! length (jobs d) = Some new
      ∧ id new = jd_id jd ∧ command new = jd_command jd
      ∧ state new = pending ∧ attempts new = 0 ∧ waiting_time new = 0
      ∧ locked_by new = None ∧ locked_at new = None
      ∧ next_retry_at new = None
      ∧ created_at new = now ∧ updated_at new = now.
Proof.
  rewrite enqueue_job_eq.
  destruct (config_defaults py_int (config d)) as [defaults|]; [|done].
  case_decide; [|done]. case_decide; [done|]. intros [= <-]. cbn [jobs config].
  split; [done|]. split.
  { rewrite length_app. unfold rewrite_rows. rewrite length_fmap. simpl. lia. }
  split.
  - intros i j Hj.
    exists (if decide (waiting_unlocked j) then set_aged j else j).
    split.
    { rewrite lookup_app_l.
      - by rewrite rewrite_rows_lookup, Hj.
      - unfold rewrite_rows. rewrite length_fmap. by eapply lookup_lt_Some. }
    unfold waiting_unlocked.
    case_decide as Hw; simpl.
    + split; [done|]. split; [|done].
      destruct Hw as [[Hs|Hs] Hl]; rewrite ?Hs, ?Hl; by intros [?|[?|[?|?]]].
    + split; [tauto|]. split; [done|]. by destruct j.
  - exists (enqueued_row defaults jd now). split; [|done].
    rewrite lookup_app_r; unfold rewrite_rows; rewrite length_fmap; [|done].
    by rewrite Nat.sub_diag.
Qed.

Lemma enqueue_job_aging_witness :
  ∃ d',
    enqueue_job decimal_int (JobData "c" "echo c" None None None None) 3 two_waiting
      = (Ok true, d')
    ∧ config d' = config two_waiting
    ∧ length (jobs d') = S (length (jobs two_waiting))
    ∧ waiting_time <$> jobs two_waiting = [1; 0]
    ∧ waiting_time <$> jobs d' = [2; 1; 0].
Proof.
  eexists. split; [reflexivity|].
  match goal with
  | |- config ?d' = _ ∧ _ =>
      destruct (enqueue_job_aging decimal_int
                  (JobData "c" "echo c" None None None None) 3 two_waiting d'
                  eq_refl) as (Hc & Hl & _)
  end.
  split; [exact Hc|]. split; [exact Hl|]. split; reflexivity.
Defined.

(** C7: when the store holds a job with the id of the job to enqueue,
    [enqueue_job] returns false and the store is as it was: the aging
    update made before the INSERT is rolled back with the transaction. *)
Theorem enqueue_job_duplicate py_int jd now d j :
  (get_job (jd_id jd) d).1 = Ok (Some j) →
  enqueue_job py_int jd now d = (Ok false, d).
Proof.
  rewrite get_job_eq, enqueue_job_eq. cbn [fst]. intros [= Hj].
  destruct (config_defaults py_int (config d)); [|done].
  case_decide; [|done].
  rewrite decide_True; [done|]. apply find_job_Exists. by rewrite Hj.
Qed.

Lemma enqueue_job_duplicate_witness :
  (get_job "lo" two_waiting).1
    = Ok (Some (set_aged (new_row "lo" "echo Low" 3 20 2 1 1)))
  ∧ enqueue_job decimal_int (JobData "lo" "echo again" None None None None) 3
      two_waiting = (Ok false, two_waiting).
Proof.
  split; [reflexivity|].
  apply (enqueue_job_duplicate decimal_int
           (JobData "lo" "echo again" None None None None) 3 two_waiting
           (set_aged (new_row "lo" "echo Low" 3 20 2 1 1))).
  reflexivity.
Defined.

(** ** Acquisition *)

#[local] Instance ranks_before_trans : Transitive ranks_before.
Proof. intros a b c. unfold ranks_before. lia. Qed.

#[local] Instance ranks_before_total : Total ranks_before.
Proof. intros a b. unfold ranks_before. lia. Qed.

Lemma ranks_before_refl a : ranks_before a a.
Proof. unfold ranks_before. lia. Qed.

Lemma fetchone_limit_1 {A} (rows : list A) : fetchone (limit 1 rows) = fetchone rows.
Proof. by destruct rows. Qed.

(** The candidate is an eligible row that no eligible row outranks. *)
Lemma candidate_Some now rows c :
  candidate now rows = Some c →
  c ∈ rows ∧ eligible now c
  ∧ ∀ k, k ∈ rows → eligible now k → ranks_before c k.
Proof.
  unfold candidate, order_by. rewrite fetchone_limit_1. unfold fetchone.
  intros Hc.
  pose proof (StronglySorted_merge_sort ranks_before (filter (eligible now) rows)) as Hs.
  pose proof (merge_sort_Permutation ranks_before (filter (eligible now) rows)) as Hp.
  destruct (merge_sort _ _) as [|c' sorted]; [done|]. injection Hc as ->.
  assert (c ∈ filter (eligible now) rows) as Hin by (rewrite <-Hp; left).
  apply list_elem_of_filter in Hin as [He Hin]. split; [done|]. split; [done|].
  intros k Hk Hek.
  assert (k ∈ c :: sorted) as Hks by (rewrite Hp; by apply list_elem_of_filter).
  apply elem_of_cons in Hks as [->|Hks]; [apply ranks_before_refl|].
  apply StronglySorted_inv in Hs as [_ Hall].
  by eapply Forall_forall in Hall.
Qed.

Lemma candidate_None now rows :
  candidate now rows = None → ∀ k, k ∈ rows → ¬ eligible now k.
Proof.
  unfold candidate, order_by. rewrite fetchone_limit_1. unfold fetchone.
  intros Hc k Hk Hek.
  pose proof (merge_sort_Permutation ranks_before (filter (eligible now) rows)) as Hp.
  apply head_None in Hc. rewrite Hc in Hp.
  assert (k ∈ filter (eligible now) rows) as Hin by (by apply list_elem_of_filter).
  rewrite <-Hp in Hin. by apply not_elem_of_nil in Hin.
Qed.

Lemma acquire_job_eq w now d :
  acquire_job w now d
  = match candidate now (jobs d) with
    | None => (Ok None, d)
    | Some c =>
        let locking := λ j, id j = id c ∧ locked_by j = None in
        let d' := Database (rewrite_rows locking (set_locked w now) (jobs d))
                           (config d) in
        if decide (length (filter locking (jobs d)) = 0%nat)
        then (Ok None, d')
        else (Ok (find_job (id c) (jobs d')), d')
    end.
Proof.
  unfold acquire_job, transaction, acquire_body, acquire_select, acquire_lock,
    candidate, mbind, sql_bind, bind, select_jobs, mret, sql_ret, ret.
  cbn. destruct (fetchone _) as [c|]; [|reflexivity].
  cbn. by case_decide.
Qed.

Lemma acquire_lock_eq w now k d :
  transaction (acquire_lock w now k) d
  = let locking := λ j, id j = k ∧ locked_by j = None in
    let d' := Database (rewrite_rows locking (set_locked w now) (jobs d))
                       (config d) in
    if decide (length (filter locking (jobs d)) = 0%nat)
    then (Ok None, d')
    else (Ok (find_job k (jobs d')), d').
Proof.
  unfold transaction, acquire_lock, mbind, sql_bind, bind, select_jobs, mret,
    sql_ret, ret.
  cbn. by case_decide.
Qed.

Lemma rewrite_rows_none P `{!∀ j, Decision (P j)} set rows :
  (∀ j, j ∈ rows → ¬ P j) → rewrite_rows P set rows = rows.
Proof.
  intros Hnone. unfold rewrite_rows.
  rewrite <-(list_fmap_id rows) at 2. apply list_fmap_ext.
  intros i j Hj. rewrite decide_False; [done|].
  apply Hnone. by eapply list_elem_of_lookup_2.
Qed.

Lemma filter_none P `{!∀ j : job, Decision (P j)} (rows : list job) :
  (∀ j, j ∈ rows → ¬ P j) → filter P rows = [].
Proof.
  intros Hnone. induction rows as [|j rows IH]; [done|].
  rewrite filter_cons, decide_False by (apply Hnone; left).
  apply IH. intros j' ?. apply Hnone. by right.
Qed.

(** What a successful acquisition does, under the primary key. *)
Lemma acquire_job_candidate w now d c :
  unique_ids d → candidate now (jobs d) = Some c →
  acquire_job w now d
  = (Ok (Some (set_locked w now c)),
     Database (rewrite_rows (λ j, id j = id c ∧ locked_by j = None)
                 (set_locked w now) (jobs d)) (config d)).
Proof.
  intros Hu Hc. rewrite acquire_job_eq, Hc. cbn zeta.
  destruct (candidate_Some _ _ _ Hc) as (Hin & [_ Hl] & _).
  rewrite decide_False.
  - cbn [jobs]. unfold rewrite_rows. rewrite find_job_fmap by (intros j; by case_decide).
    rewrite (find_job_unique _ c) by done. simpl. by rewrite decide_True.
  - intros Hlen. apply length_zero_iff_nil in Hlen.
    assert (c ∈ filter (λ j, id j = id c ∧ locked_by j = None) (jobs d)) as Hf
      by (by apply list_elem_of_filter).
    rewrite Hlen in Hf. by apply not_elem_of_nil in Hf.
Qed.

Lemma unique_ids_eq rows j j' :
  NoDup (id <$> rows) → j ∈ rows → j' ∈ rows → id j = id j' → j = j'.
Proof.
  intros Hu Hj Hj' Hid. apply find_job_unique in Hj, Hj'; try done.
  rewrite Hid in Hj. congruence.
Qed.

Lemma acquire_job_unique_ids w now d :
  unique_ids d → unique_ids (acquire_job w now d).2.
Proof.
  unfold unique_ids. intros Hu. rewrite acquire_job_eq.
  destruct (candidate now (jobs d)); [|done]. cbn zeta.
  case_decide; cbn [snd jobs]; by rewrite rewrite_rows_ids.
Qed.

(** The rows [acquire_job] leaves alone: all but the candidate. *)
Lemma acquire_job_frame w now d c i k :
  unique_ids d → candidate now (jobs d) = Some c →
  jobs d !! i = Some k → k ≠ c →
  jobs (acquire_job w now d).2 !! i = Some k.
Proof.
  intros Hu Hc Hk Hne. rewrite (acquire_job_candidate _ _ _ c) by done.
  cbn [snd jobs]. rewrite rewrite_rows_lookup, Hk. simpl.
  rewrite decide_False; [done|]. intros [Hid _]. apply Hne.
  apply (unique_ids_eq (jobs d)); try done.
  - by eapply list_elem_of_lookup_2.
  - by destruct (candidate_Some _ _ _ Hc).
Qed.

(** The WHERE clause of the SELECT, column by column. *)
Lemma eligible_columns now k :
  eligible now k
  ↔ locked_by k = None
    ∧ (state k = pending
       ∨ (state k = failed ∧ ∃ t, next_retry_at k = Some t ∧ t ≤ now)).
Proof.
  unfold eligible, retry_due. destruct (next_retry_at k) as [t|].
  - split.
    + intros [[?|[? ?]] ?]; (split; [done|]); [by left|right]. eauto.
    + intros [? [?|[? (t' & [= <-] & ?)]]]; (split; [|done]); [by left|by right].
  - split.
    + intros [[?|[? []]] ?]. split; [done|by left].
    + intros [? [?|[? (t' & [=] & ?)]]]. split; [by left|done].
Qed.

(** The SQL sum is the sum when the sum fits in 64 bits. *)
Lemma sql_add_exact a b : int64 (a + b) → sql_add a b = a + b.
Proof. intros ?. unfold sql_add. by rewrite decide_True. Qed.

(** C2, as amended: an [acquire_job] whose SELECT and UPDATE meet the same
    store selects among the eligible jobs only (not locked, and pending, or
    failed with [next_retry_at <= now]); the job it returns has the
    greatest [priority + waiting_time] among them as SQLite computes the
    sum, which is the sum itself whenever it fits in 64 bits, and, among
    those with that value, the earliest [created_at]; it returns a job
    whenever one is eligible; and it changes no row but the selected one,
    so no completed, dead or processing job is selected or changed. *)
Theorem acquire_job_selects w now d :
  unique_ids d →
  ∃ r d', acquire_job w now d = (Ok r, d')
    ∧ match r with
      | Some j =>
          ∃ j0, j0 ∈ jobs d ∧ j = set_locked w now j0
            ∧ locked_by j0 = None
            ∧ (state j0 = pending
               ∨ (state j0 = failed
                  ∧ ∃ t, next_retry_at j0 = Some t ∧ t ≤ now))
            ∧ (∀ k, k ∈ jobs d →
                 locked_by k = None →
                 state k = pending
                 ∨ (state k = failed
                    ∧ ∃ t, next_retry_at k = Some t ∧ t ≤ now) →
                 sql_add (priority k) (waiting_time k)
                   ≤ sql_add (priority j0) (waiting_time j0)
                 ∧ (sql_add (priority k) (waiting_time k)
                      = sql_add (priority j0) (waiting_time j0) →
                    created_at j0 ≤ created_at k)
                 ∧ (int64 (priority k + waiting_time k) →
                    int64 (priority j0 + waiting_time j0) →
                    priority k + waiting_time k
                      ≤ priority j0 + waiting_time j0
                    ∧ (priority k + waiting_time k
                         = priority j0 + waiting_time j0 →
                       created_at j0 ≤ created_at k)))
            ∧ (∀ i k, jobs d !! i = Some k → k ≠ j0 → jobs d' !! i = Some k)
      | None =>
          (∀ k, k ∈ jobs d →
             ¬ (locked_by k = None
                ∧ (state k = pending
                   ∨ (state k = failed
                      ∧ ∃ t, next_retry_at k = Some t ∧ t ≤ now))))
          ∧ d' = d
      end
    ∧ (∀ i k, jobs d !! i = Some k →
         state k = completed ∨ state k = dead ∨ state k = processing →
         jobs d' !! i = Some k ∧ ∀ j, r = Some j → id j ≠ id k).
Proof.
  intros Hu. destruct (candidate now (jobs d)) as [c|] eqn:Hc.
  - destruct (candidate_Some _ _ _ Hc) as (Hin & He & Hbest).
    eexists. eexists. split; [by apply acquire_job_candidate|].
    assert (∀ k, state k = completed ∨ state k = dead ∨ state k = processing →
                 k ≠ c) as Hother.
    { intros k Hk ->. destruct He as [[Hs|[Hs _]] _]; rewrite Hs in Hk;
        by destruct Hk as [?|[?|?]]. }
    split.
    + exists c. split; [done|]. split; [done|].
      apply eligible_columns in He as [Hl Hst].
      split; [done|]. split; [done|]. split.
      { intros k Hk Hkl Hks.
        assert (eligible now k) as Hek by (by apply eligible_columns).
        specialize (Hbest k Hk Hek).
        unfold ranks_before, order_key in Hbest.
        split; [lia|]. split; [lia|]. intros Hik Hic.
        rewrite !sql_add_exact in Hbest by done. lia. }
      intros i k Hk Hne.
      pose proof (acquire_job_frame w now d c i k Hu Hc Hk Hne) as Hf.
      by rewrite (acquire_job_candidate _ _ _ c) in Hf.
    + intros i k Hk Hst. split.
      * pose proof (acquire_job_frame w now d c i k Hu Hc Hk (Hother k Hst)) as Hf.
        by rewrite (acquire_job_candidate _ _ _ c) in Hf.
      * intros j [= <-]. simpl. intros Hid. apply (Hother k Hst).
        apply (unique_ids_eq (jobs d)); try done.
        by eapply list_elem_of_lookup_2.
  - exists None, d. rewrite acquire_job_eq, Hc.
    split; [done|]. split; [|by intros].
    split; [|done]. intros k Hk Hek%eligible_columns.
    by apply (candidate_None _ _ Hc k).
Qed.

Lemma acquire_job_selects_witness :
  unique_ids two_waiting
  ∧ ∃ r d', acquire_job "w1" 3 two_waiting = (Ok r, d')
      ∧ (id <$> r) = Some "hi"
      ∧ (state <$> jobs d') = [pending; processing].
Proof.
  split; [compute_done|].
  destruct (acquire_job_selects "w1" 3 two_waiting) as (r & d' & Hr & _);
    [compute_done|].
  exists r, d'. split; [done|].
  vm_compute in Hr. injection Hr as <- <-. split; reflexivity.
Defined.

(** C2 as stated fails.  In [rounded_keys] the sums of [x] and [y] leave 64
    bits and both round to 2^63: [acquire_job] returns [x], the older of
    the two, although [y] is eligible and its [priority + waiting_time] is
    greater.  And the UPDATE of a call whose SELECT ran on [two_waiting]
    changes [hi] in [hi_completed], where the job is completed. *)
Lemma acquire_job_not_greatest_sum :
  (∃ j x y,
     (acquire_job "w1" 5 rounded_keys).1 = Ok (Some j) ∧ id j = "x"
     ∧ (get_job "x" rounded_keys).1 = Ok (Some x)
     ∧ (get_job "y" rounded_keys).1 = Ok (Some y)
     ∧ state y = pending ∧ locked_by y = None
     ∧ priority x + waiting_time x < priority y + waiting_time y)
  ∧ (∃ selected j j',
       (transaction (acquire_select 3) two_waiting).1 = Ok (Some selected)
       ∧ id selected = "hi"
       ∧ (get_job "hi" hi_completed).1 = Ok (Some j) ∧ state j = completed
       ∧ (get_job "hi"
            (transaction (acquire_lock "w2" 3 (id selected)) hi_completed).2).1
         = Ok (Some j')
       ∧ state j' = processing ∧ locked_by j' = Some "w2").
Proof.
  split.
  - eexists. eexists. eexists.
    split; [vm_compute; reflexivity|]. split; [reflexivity|].
    split; [vm_compute; reflexivity|]. split; [vm_compute; reflexivity|].
    split; [reflexivity|]. split; [reflexivity|]. simpl. lia.
  - eexists. eexists. eexists.
    split; [vm_compute; reflexivity|]. split; [reflexivity|].
    split; [vm_compute; reflexivity|]. split; [reflexivity|].
    split; [vm_compute; reflexivity|]. split; reflexivity.
Qed.

(** One [acquire_job] after another: a job [acquire_job] returns was not
    locked before the call; after it the job is processing, locked by the
    caller, with [locked_at] and [updated_at] at the time of the call.  An
    [acquire_job] that runs next, by any worker, returns another job or
    none; so does an UPDATE that runs next, whichever row its SELECT had
    yielded: on the same job it finds no row to update and returns none. *)
Lemma acquire_job_then_acquire_job w now d j d' :
  unique_ids d →
  acquire_job w now d = (Ok (Some j), d') →
  (∃ j0, (get_job (id j) d).1 = Ok (Some j0) ∧ locked_by j0 = None)
  ∧ (get_job (id j) d').1 = Ok (Some j)
  ∧ state j = processing ∧ locked_by j = Some w
  ∧ locked_at j = Some now ∧ updated_at j = now
  ∧ (∀ w2 now2, ∃ r2 d2,
       acquire_job w2 now2 d' = (Ok r2, d2)
       ∧ ∀ j2, r2 = Some j2 → id j2 ≠ id j)
  ∧ (∀ w2 now2 selected, ∃ r2 d2,
       transaction (acquire_lock w2 now2 selected) d' = (Ok r2, d2)
       ∧ ∀ j2, r2 = Some j2 → id j2 ≠ id j)
  ∧ (∀ w2 now2, transaction (acquire_lock w2 now2 (id j)) d' = (Ok None, d')).
Proof.
  intros Hu Hacq.
  destruct (candidate now (jobs d)) as [c|] eqn:Hc;
    [|by rewrite acquire_job_eq, Hc in Hacq].
  pose proof (acquire_job_unique_ids w now d Hu) as Hu'.
  rewrite (acquire_job_candidate _ _ _ c) in Hacq, Hu' by done.
  injection Hacq as <- <-. cbn [snd] in Hu'.
  destruct (candidate_Some _ _ _ Hc) as (Hin & [_ Hl] & _).
  set (d' := Database _ _) in *.
  assert (find_job (id c) (jobs d') = Some (set_locked w now c)) as Hfind.
  { subst d'. cbn [jobs]. unfold rewrite_rows.
    rewrite find_job_fmap by (intros j; by case_decide).
    rewrite (find_job_unique _ c) by done. simpl. by rewrite decide_True. }
  assert (∀ k, k ∈ jobs d' → id k = id c → locked_by k ≠ None) as Hlocked.
  { intros k Hk Hid Hnone.
    assert (k = set_locked w now c) as ->; [|done].
    apply (unique_ids_eq (jobs d')); try done.
    by apply find_job_elem_of in Hfind. }
  assert (∀ w2 now2, transaction (acquire_lock w2 now2 (id c)) d' = (Ok None, d'))
    as Hrace.
  { intros w2 now2. rewrite acquire_lock_eq. cbn zeta.
    rewrite filter_none, rewrite_rows_none; [by destruct d'| |];
      intros k Hk [Hid Hnone]; by apply (Hlocked k). }
  rewrite !get_job_eq. cbn [fst id set_locked].
  split. { exists c. by rewrite find_job_unique. }
  split; [by rewrite Hfind|]. do 4 (split; [done|]). split; [|split].
  - intros w2 now2. destruct (candidate now2 (jobs d')) as [c2|] eqn:Hc2.
    + eexists. eexists. split; [by apply acquire_job_candidate|].
      intros j2 [= <-]. simpl. intros Hid.
      destruct (candidate_Some _ _ _ Hc2) as (Hin2 & [_ Hl2] & _).
      by apply (Hlocked c2).
    + exists None, d'. by rewrite acquire_job_eq, Hc2.
  - intros w2 now2 selected. destruct (decide (selected = id c)) as [->|Hne].
    + exists None, d'. split; [by apply Hrace|done].
    + rewrite acquire_lock_eq. cbn zeta.
      case_decide; eexists; eexists; (split; [reflexivity|]); [done|].
      intros j2 [= Hj2] Hid. apply find_job_Some_id in Hj2. congruence.
  - apply Hrace.
Qed.

(** C1 fails in the code: the SELECT and the UPDATE of [acquire_job] are
    two statements, and the UPDATE asks of the row it locks only that it is
    not locked.  The SELECT of worker [w2] on [two_waiting] yields [hi].
    Before its UPDATE runs, worker [w1] acquires [hi] and completes it, which
    clears the lock.  The UPDATE of [w2] then finds [hi] unlocked, and the
    call returns [hi] as well: two calls have returned the same job, and the
    completed job is processing again. *)
Theorem acquire_job_returns_job_twice :
  ∃ selected j1 j j2,
    (transaction (acquire_select 3) two_waiting).1 = Ok (Some selected)
    ∧ id selected = "hi"
    ∧ (acquire_job "w1" 4 two_waiting).1 = Ok (Some j1) ∧ id j1 = "hi"
    ∧ hi_completed
      = (complete_job "hi" "High" None 5 (acquire_job "w1" 4 two_waiting).2).2
    ∧ (get_job "hi" hi_completed).1 = Ok (Some j)
    ∧ state j = completed ∧ locked_by j = None
    ∧ (transaction (acquire_lock "w2" 3 (id selected)) hi_completed).1
      = Ok (Some j2)
    ∧ id j2 = "hi" ∧ state j2 = processing ∧ locked_by j2 = Some "w2".
Proof.
  eexists. eexists. eexists. eexists.
  split; [vm_compute; reflexivity|]. split; [reflexivity|].
  split; [vm_compute; reflexivity|]. split; [reflexivity|].
  split; [reflexivity|].
  split; [vm_compute; reflexivity|]. split; [reflexivity|].
  split; [reflexivity|].
  split; [vm_compute; reflexivity|]. repeat split.
Qed.

(** ** The retry budget along a run *)

Lemma filter_unique_ids P `{!∀ j : job, Decision (P j)} (rows : list job) :
  NoDup (id <$> rows) → NoDup (id <$> filter P rows).
Proof.
  intros Hu. eapply sublist_NoDup; [exact Hu|].
  apply fmap_sublist, sublist_filter.
Qed.

Lemma filter_store_ok P `{!∀ j : job, Decision (P j)} d :
  store_ok d → store_ok (Database (filter P (jobs d)) (config d)).
Proof.
  intros [Hu Hb]. split.
  - by apply filter_unique_ids.
  - cbn [jobs]. apply Forall_forall. intros j Hj.
    apply list_elem_of_filter in Hj as [_ Hj]. by eapply Forall_forall in Hb.
Qed.

Lemma rewrite_rows_store_ok P `{!∀ j : job, Decision (P j)} set d :
  (∀ j, id (set j) = id j) →
  (∀ j, j ∈ jobs d → P j → within_budget j → within_budget (set j)) →
  store_ok d → store_ok (Database (rewrite_rows P set (jobs d)) (config d)).
Proof.
  intros Hid Hset [Hu Hb]. split.
  - unfold unique_ids. cbn [jobs]. by rewrite rewrite_rows_ids.
  - cbn [jobs]. unfold rewrite_rows. apply Forall_fmap, Forall_forall.
    intros j Hj. simpl. pose proof (proj1 (Forall_forall _ _) Hb j Hj).
    case_decide; eauto.
Qed.

Lemma enqueue_job_store_ok py_int jd now d :
  store_ok d → store_ok (enqueue_job py_int jd now d).2.
Proof.
  intros Hok. rewrite enqueue_job_eq.
  destruct (config_defaults py_int (config d)) as [defaults|]; [|done].
  case_decide; [|done]. case_decide as Hex; [done|]. cbn [snd].
  pose proof (rewrite_rows_store_ok waiting_unlocked set_aged d
                (λ _, eq_refl) (λ j _ _ H, H) Hok) as [Hu Hb].
  split.
  - unfold unique_ids in *. cbn [jobs] in *.
    rewrite fmap_app. apply NoDup_app. split; [done|]. split.
    + intros k Hk [->|[]%elem_of_nil]%elem_of_cons. apply Hex.
      rewrite rewrite_rows_ids in Hk by done.
      apply list_elem_of_fmap in Hk as (j & Hid & Hj).
      apply Exists_exists. by exists j.
    + apply NoDup_singleton.
  - cbn [jobs] in *. apply Forall_app. split; [done|].
    apply Forall_singleton. intros Hmax. simpl in *. lia.
Qed.

Lemma acquire_job_store_ok w now d :
  store_ok d → store_ok (acquire_job w now d).2.
Proof.
  intros Hok. pose proof Hok as [Hu Hb].
  destruct (candidate now (jobs d)) as [c|] eqn:Hc;
    [|by rewrite acquire_job_eq, Hc].
  rewrite (acquire_job_candidate _ _ _ c) by done. cbn [snd].
  apply rewrite_rows_store_ok; [done| |done].
  intros j Hj [Hid _] Hbj Hmax.
  destruct (candidate_Some _ _ _ Hc) as (Hin & [Hst _] & _).
  assert (j = c) as -> by (by apply (unique_ids_eq (jobs d))).
  destruct (Hbj Hmax) as [? Hlt]. simpl. split; [done|]. intros _.
  apply Hlt. destruct Hst as [?|[? _]]; auto.
Qed.

Lemma complete_job_store_ok k out t now d :
  store_ok d → store_ok (complete_job k out t now d).2.
Proof.
  intros Hok. rewrite complete_job_eq. cbn [snd].
  apply rewrite_rows_store_ok; [done| |done].
  intros j _ _ Hbj Hmax. destruct (Hbj Hmax) as [? _]. simpl.
  split; [done|]. by intros [?|[?|?]].
Qed.

Lemma fail_job_store_ok k msg t now now2 d :
  budget_left k d →
  store_ok d → store_ok (fail_job k msg t now now2 d).2.
Proof.
  unfold budget_left.
  intros Hleft Hok. pose proof Hok as [Hu Hb]. rewrite fail_job_eq.
  destruct (find_job k (jobs d)) as [read|] eqn:Hread; [|done].
  case_decide; [|done]. cbn [snd].
  apply rewrite_rows_store_ok; [apply fail_set_id| |done].
  intros j Hj Hid Hbj Hmax.
  assert (j = read) as ->.
  { apply (unique_ids_eq (jobs d)); try done.
    - by eapply find_job_elem_of.
    - apply find_job_Some_id in Hread. congruence. }
  unfold fail_set in *. case_decide; simpl in *.
  all: specialize (Hleft Hmax).
  - split; [lia|]. by intros [?|[?|?]].
  - split; [lia|]. intros _. lia.
Qed.

(** A job that is pending, failed or processing has retries left. *)
Lemma budget_left_live k d j :
  store_ok d → find_job k (jobs d) = Some j →
  state j = pending ∨ state j = failed ∨ state j = processing →
  budget_left k d.
Proof.
  intros [_ Hb] Hj Hst. unfold budget_left. rewrite Hj. intros Hmax.
  apply find_job_elem_of in Hj.
  by apply (proj1 (Forall_forall _ _) Hb j Hj).
Qed.

Lemma retry_dlq_job_store_ok k now d :
  store_ok d → store_ok (retry_dlq_job k now d).2.
Proof.
  intros Hok. rewrite retry_dlq_job_eq.
  destruct (find_job k (jobs d)) as [j|]; [|done].
  case_decide; [|done]. cbn [snd].
  apply rewrite_rows_store_ok; [done| |done].
  intros j' _ _ _ Hmax. simpl in *. lia.
Qed.

Lemma step_store_ok py_int o ops d :
  fails_within_budget py_int (o :: ops) d →
  store_ok d → store_ok (step py_int d o).
Proof.
  intros [Hguard _] Hok. destruct o; cbn [step].
  - by apply enqueue_job_store_ok.
  - by apply acquire_job_store_ok.
  - by apply complete_job_store_ok.
  - by apply fail_job_store_ok.
  - by apply retry_dlq_job_store_ok.
  - rewrite delete_job_eq. by apply filter_store_ok.
  - rewrite clear_all_jobs_eq. by apply filter_store_ok.
Qed.

Lemma run_store_ok py_int ops d :
  fails_within_budget py_int ops d → store_ok d → store_ok (run py_int ops d).
Proof.
  revert d. induction ops as [|o ops IH]; intros d Hguard Hok; [done|].
  simpl. apply IH; [apply Hguard|]. by eapply step_store_ok.
Qed.

(** A run that fails only jobs that are pending, failed or processing
    never fails a job that has used up its retries. *)
Lemma fails_on_live_within_budget py_int ops d :
  store_ok d → fails_on_live py_int ops d → fails_within_budget py_int ops d.
Proof.
  revert d. induction ops as [|o ops IH]; intros d Hok Hlive; [done|].
  destruct Hlive as [Hhead Hlive].
  assert (match o with
          | op_fail k _ _ _ _ => budget_left k d
          | _ => True
          end) as Hbudget.
  { destruct o as [| | |k msg t now now2| | |]; try done.
    destruct (find_job k (jobs d)) as [j|] eqn:Hj.
    - by apply (budget_left_live k d j).
    - unfold budget_left. by rewrite Hj. }
  split; [done|]. apply IH; [|done].
  destruct o; cbn [step].
  - by apply enqueue_job_store_ok.
  - by apply acquire_job_store_ok.
  - by apply complete_job_store_ok.
  - by apply fail_job_store_ok.
  - by apply retry_dlq_job_store_ok.
  - rewrite delete_job_eq. by apply filter_store_ok.
  - rewrite clear_all_jobs_eq. by apply filter_store_ok.
Qed.

(** C8, as amended: in every state reached from a store without jobs by
    enqueue, acquire, complete, fail, dlq_retry, delete and clear, where
    fail is never called on a job whose [attempts] have reached its
    [max_retries], every job with [max_retries >= 1] has
    [attempts <= max_retries], and [attempts < max_retries] while it is
    pending, failed or processing, so that a fail of such a job is within
    these runs; and a fail that brings [attempts] to [max_retries] or
    beyond returns, when the new [attempts] fits in 64 bits, and leaves the
    job dead. *)
Theorem attempts_within_max_retries py_int cfg ops :
  fails_within_budget py_int ops (Database [] cfg) →
  (∀ j, j ∈ jobs (run py_int ops (Database [] cfg)) →
        1 ≤ max_retries j →
        attempts j ≤ max_retries j
        ∧ (state j = pending ∨ state j = failed ∨ state j = processing →
           attempts j < max_retries j))
  ∧ (∀ k msg t now now2 j,
       (get_job k (run py_int ops (Database [] cfg))).1 = Ok (Some j) →
       max_retries j ≤ attempts j + 1 →
       int64 (attempts j + 1) →
       (fail_job k msg t now now2 (run py_int ops (Database [] cfg))).1 = Ok ()
       ∧ ∃ j', (get_job k (fail_job k msg t now now2
                             (run py_int ops (Database [] cfg))).2).1
               = Ok (Some j')
           ∧ attempts j' = attempts j + 1 ∧ state j' = dead).
Proof.
  intros Hguard. split.
  - intros j Hj Hmax.
    destruct (run_store_ok py_int ops (Database [] cfg) Hguard) as [_ Hb].
    { split; [apply NoDup_nil_2|apply Forall_nil_2]. }
    by apply (proj1 (Forall_forall _ _) Hb j Hj).
  - intros k msg t now now2 j. rewrite !get_job_eq. cbn [fst].
    intros [= Hj] Hmax Hint.
    assert (fail_job_returns j now2) as Hret by (split; [done|by left]).
    split; [by apply (fail_job_outcome k msg t now now2 _ j Hj)|].
    exists (fail_set j msg t now now2 j).
    rewrite (fail_job_find _ _ _ _ _ _ j) by done.
    unfold fail_set. by rewrite decide_True.
Qed.

Lemma attempts_within_max_retries_witness :
  fails_within_budget decimal_int two_failures empty_store
  ∧ (state <$> jobs (run decimal_int two_failures empty_store)) = [dead]
  ∧ ∀ j, j ∈ jobs (run decimal_int two_failures empty_store) →
         1 ≤ max_retries j → attempts j ≤ max_retries j.
Proof.
  split; [vm_compute; repeat split; done|]. split; [reflexivity|].
  intros j Hj Hmax.
  apply (attempts_within_max_retries decimal_int ∅ two_failures);
    [vm_compute; repeat split; done | exact Hj | exact Hmax].
Defined.

(** C8 as stated fails: a job enqueued with [max_retries = 0] has one
    attempt after its first failure; a failure reported for a job that is
    already dead is counted beyond [max_retries]; and so is one reported
    for a job that was completed after it had used up its retries. *)
Lemma attempts_exceed_max_retries :
  (∃ j, j ∈ jobs (run decimal_int no_retries_run empty_store)
        ∧ attempts j = 1 ∧ max_retries j = 0
        ∧ ¬ attempts j ≤ max_retries j)
  ∧ (∃ j, j ∈ jobs (run decimal_int failed_again_run empty_store)
          ∧ attempts j = 2 ∧ max_retries j = 1
          ∧ ¬ attempts j ≤ max_retries j)
  ∧ (∃ j, j ∈ jobs (run decimal_int completed_then_failed_run empty_store)
          ∧ attempts j = 2 ∧ max_retries j = 1
          ∧ ¬ attempts j ≤ max_retries j).
Proof.
  split; [|split]; eexists; (split; [vm_compute; left|]); simpl;
    repeat split; lia.
Qed.

(** * Further properties of the store *)

(** ** Enqueue: result, round trip, configuration *)

Lemma find_job_app k rows rows' :
  find_job k (rows ++ rows')
  = match find_job k rows with
    | Some j => Some j
    | None => find_job k rows'
    end.
Proof.
  unfold find_job, fetchone. rewrite filter_app.
  by destruct (filter _ rows).
Qed.

Lemma find_job_singleton k row :
  find_job k [row] = if decide (id row = k) then Some row else None.
Proof. unfold find_job, fetchone. rewrite filter_cons. by case_decide. Qed.

(** X1: [enqueue_job] never raises.  It returns true exactly when the
    configured defaults are readable as integers, the four integers it
    binds to the INSERT ([max_retries], [timeout], [backoff_base] and
    [priority], given or defaulted) fit in 64 bits, and no job has the id;
    when it returns false the store is as it was. *)
Theorem enqueue_job_result py_int jd now d :
  ∃ b d', enqueue_job py_int jd now d = (Ok b, d')
    ∧ (b = true
       ↔ (∃ m base, config_defaults py_int (config d) = Some (m, base)
            ∧ int64 (default m (jd_max_retries jd))
            ∧ int64 (default 20 (jd_timeout jd))
            ∧ int64 (default base (jd_backoff_base jd))
            ∧ int64 (default 5 (jd_priority jd)))
         ∧ (get_job (jd_id jd) d).1 = Ok None)
    ∧ (b = false → d' = d).
Proof.
  rewrite enqueue_job_eq, get_job_eq. cbn [fst].
  destruct (config_defaults py_int (config d)) as [[m base]|].
  - case_decide as Hbinds; [case_decide as Hex|].
    + exists false, d. split; [done|]. split; [|done]. split; [done|].
      intros [_ [= Hnone]]. apply find_job_Exists in Hex as [j Hj]. congruence.
    + eexists true, _. split; [done|]. split; [|done]. split; [|done].
      intros _. split; [by exists m, base|]. f_equal.
      destruct (find_job (jd_id jd) (jobs d)) eqn:Hf; [|done].
      destruct Hex. apply find_job_Exists. by rewrite Hf.
    + exists false, d. split; [done|]. split; [|done]. split; [done|].
      intros [(m' & base' & [= <- <-] & Hints) _]. by destruct Hbinds.
  - exists false, d. split; [done|]. split; [|done]. split; [done|].
    by intros [(? & ? & [=] & _) _].
Qed.

(** The row a successful [enqueue_job] leaves under the id. *)
Lemma enqueue_job_inserted py_int jd now d d' :
  enqueue_job py_int jd now d = (Ok true, d') →
  ∃ defaults,
    config_defaults py_int (config d) = Some defaults
    ∧ find_job (jd_id jd) (jobs d') = Some (enqueued_row defaults jd now)
    ∧ d' = Database (rewrite_rows waiting_unlocked set_aged (jobs d)
                     ++ [enqueued_row defaults jd now]) (config d).
Proof.
  rewrite enqueue_job_eq.
  destruct (config_defaults py_int (config d)) as [defaults|] eqn:Hcfg; [|done].
  case_decide; [|done]. case_decide as Hex; [done|]. intros [= <-].
  exists defaults. split; [done|]. split; [|done]. cbn [jobs].
  rewrite find_job_app. unfold rewrite_rows.
  rewrite find_job_fmap by (intros j; by case_decide).
  assert (find_job (jd_id jd) (jobs d) = None) as ->.
  { destruct (find_job _ _) eqn:Hf; [|done].
    destruct Hex. apply find_job_Exists. by rewrite Hf. }
  cbn [fmap option_fmap option_map].
  rewrite find_job_singleton. by rewrite decide_True.
Qed.

Lemma config_defaults_Some py_int cfg m b :
  config_defaults py_int cfg = Some (m, b) →
  match cfg !! "max-retries" with
  | Some v => py_int v = Some m
  | None => m = 3
  end
  ∧ match cfg !! "backoff-base" with
    | Some v => py_int v = Some b
    | None => b = 2
    end.
Proof.
  unfold config_defaults. intros Hcfg.
  destruct (cfg !! "max-retries") as [v1|];
    destruct (cfg !! "backoff-base") as [v2|]; simplify_option_eq; done.
Qed.

(** X2: the job a successful [enqueue_job] inserts is the one [get_job]
    then returns: the values of [job_data] where given, otherwise 20 for
    [timeout], 5 for [priority], and for [max_retries] and [backoff_base]
    the integers of the configuration keys, or 3 and 2 without them. *)
Theorem enqueue_job_get_job py_int jd now d d' :
  enqueue_job py_int jd now d = (Ok true, d') →
  ∃ m b new,
    (get_job (jd_id jd) d').1 = Ok (Some new)
    ∧ match config d !! "max-retries" with
      | Some v => py_int v = Some m
      | None => m = 3
      end
    ∧ match config d !! "backoff-base" with
      | Some v => py_int v = Some b
      | None => b = 2
      end
    ∧ id new = jd_id jd ∧ command new = jd_command jd
    ∧ max_retries new = default m (jd_max_retries jd)
    ∧ timeout new = default 20 (jd_timeout jd)
    ∧ backoff_base new = default b (jd_backoff_base jd)
    ∧ priority new = default 5 (jd_priority jd)
    ∧ state new = pending ∧ attempts new = 0
    ∧ output new = None ∧ error_message new = None
    ∧ execution_time new = None.
Proof.
  intros Henq.
  destruct (enqueue_job_inserted _ _ _ _ _ Henq) as ([m b] & Hcfg & Hfind & _).
  apply config_defaults_Some in Hcfg as [Hm Hb].
  exists m, b, (enqueued_row (m, b) jd now).
  rewrite get_job_eq. cbn [fst]. rewrite Hfind. repeat split; done.
Qed.

Lemma enqueue_job_get_job_witness :
  ∃ new, (get_job "hi" two_waiting).1 = Ok (Some new)
    ∧ max_retries new = 3 ∧ backoff_base new = 2 ∧ priority new = 10.
Proof.
  destruct (enqueue_job_get_job decimal_int
              (JobData "hi" "echo High" None None None (Some 10)) 2
              (enqueue_job decimal_int
                 (JobData "lo" "echo Low" None None None (Some 1)) 1
                 empty_store).2 two_waiting eq_refl)
    as (m & b & new & Hget & Hm & Hb & _ & _ & Hmax & _ & Hbase & Hprio & _).
  exists new. split; [exact Hget|]. vm_compute in Hm, Hb. subst m b.
  split; [exact Hmax|]. split; [exact Hbase|exact Hprio].
Defined.

(** X3: a value of [max-retries] or [backoff-base] in the configuration
    that [int] rejects makes every [enqueue_job] return false and leave the
    store as it was, whatever [job_data] holds. *)
Theorem enqueue_job_unreadable_config py_int jd now d key v :
  key = "max-retries" ∨ key = "backoff-base" →
  config d !! key = Some v →
  py_int v = None →
  enqueue_job py_int jd now d = (Ok false, d).
Proof.
  intros Hkey Hv Hint. rewrite enqueue_job_eq.
  assert (config_defaults py_int (config d) = None) as ->; [|done].
  unfold config_defaults. destruct Hkey as [-> | ->]; rewrite Hv, Hint.
  - done.
  - by destruct (config d !! "max-retries") as [v1|]; [destruct (py_int v1)|].
Qed.

Lemma enqueue_job_unreadable_config_witness :
  config (set_config "max-retries" "many" two_waiting).2 !! "max-retries"
    = Some "many"
  ∧ decimal_int "many" = None
  ∧ enqueue_job decimal_int (JobData "c" "echo c" (Some 4) None (Some 2) None) 3
      (set_config "max-retries" "many" two_waiting).2
    = (Ok false, (set_config "max-retries" "many" two_waiting).2).
Proof.
  split; [reflexivity|]. split; [reflexivity|].
  apply (enqueue_job_unreadable_config decimal_int _ 3 _ "max-retries" "many");
    [by left | reflexivity | reflexivity].
Defined.

(** ** Configuration *)

Lemma set_config_eq key value d :
  set_config key value d = (Ok (), Database (jobs d) (<[key := value]> (config d))).
Proof. reflexivity. Qed.

Lemma get_config_eq key default_value d :
  get_config key default_value d = (Ok (default default_value (config d !! key)), d).
Proof. reflexivity. Qed.

(** X4: [get_config] returns the value [set_config] stored under the key,
    whatever was stored there before; the other keys and the jobs are not
    touched, and of two values set for a key the second remains. *)
Theorem set_config_get_config key value default_value d :
  get_config key default_value (set_config key value d).2
    = (Ok value, (set_config key value d).2)
  ∧ (∀ key', key' ≠ key →
       (get_config key' default_value (set_config key value d).2).1
       = (get_config key' default_value d).1)
  ∧ jobs (set_config key value d).2 = jobs d
  ∧ (∀ value0, set_config key value (set_config key value0 d).2
               = set_config key value d).
Proof.
  rewrite !set_config_eq. cbn [snd]. rewrite !get_config_eq. cbn [config jobs fst].
  split; [by rewrite lookup_insert_eq|]. split.
  - intros key' Hne. rewrite !get_config_eq. cbn [fst config].
    by rewrite lookup_insert_ne.
  - split; [done|]. intros value0. rewrite !set_config_eq. cbn [snd config jobs].
    by rewrite insert_insert_eq.
Qed.

(** X5: for a key the configuration does not hold, [get_config] returns
    the default it is given; and the [config get] command reports a key as
    found (exit code 0) exactly when it is present with a value that is not
    the empty string. *)
Theorem get_config_missing key d :
  (config d !! key = None →
     ∀ default_value, get_config key default_value d = (Ok default_value, d))
  ∧ (cli_config_get key d = 0
     ↔ ∃ value, config d !! key = Some value ∧ value ≠ "").
Proof.
  split.
  - intros Hnone default_value. by rewrite get_config_eq, Hnone.
  - unfold cli_config_get. rewrite get_config_eq.
    destruct (config d !! key) as [value|]; cbn [default].
    + case_decide; split; try done.
      * intros (v & [= <-] & ?). done.
      * intros _. by exists value.
    + rewrite decide_True by done. split; [done|]. by intros (? & [=] & _).
Qed.

(** X6: after [set_config] stores under [max-retries] a value that [int]
    reads as [n], a job enqueued without [max_retries] gets [n]. *)
Theorem set_config_max_retries_applies py_int value n jd now d d' :
  py_int value = Some n →
  jd_max_retries jd = None →
  enqueue_job py_int jd now (set_config "max-retries" value d).2 = (Ok true, d') →
  ∃ new, (get_job (jd_id jd) d').1 = Ok (Some new) ∧ max_retries new = n.
Proof.
  intros Hint Hnone Henq.
  destruct (enqueue_job_inserted _ _ _ _ _ Henq) as ([m b] & Hcfg & Hfind & _).
  apply config_defaults_Some in Hcfg as [Hm _].
  exists (enqueued_row (m, b) jd now). rewrite get_job_eq. cbn [fst].
  split; [by rewrite Hfind|].
  rewrite set_config_eq in Hm. cbn [snd config] in Hm.
  rewrite lookup_insert_eq in Hm. simpl. rewrite Hnone. simpl. congruence.
Qed.

Lemma set_config_max_retries_applies_witness :
  decimal_int "5" = Some 5
  ∧ ∃ d' new,
      enqueue_job decimal_int (JobData "c" "echo c" None None None None) 3
        (set_config "max-retries" "5" two_waiting).2 = (Ok true, d')
      ∧ (get_job "c" d').1 = Ok (Some new) ∧ max_retries new = 5.
Proof.
  split; [reflexivity|]. eexists.
  match goal with
  | |- ∃ new, ?e = (Ok true, ?d') ∧ _ =>
      destruct (set_config_max_retries_applies decimal_int "5" 5
                  (JobData "c" "echo c" None None None None) 3 two_waiting d'
                  eq_refl eq_refl eq_refl) as (new & Hget & Hmax)
  end.
  exists new. split; [reflexivity|]. split; [exact Hget|exact Hmax].
Defined.

(** ** Removal *)

Lemma delete_job_full_eq k d :
  delete_job k d
  = (Ok (bool_decide (0 < length (filter (λ j, id j = k) (jobs d)))%nat),
     Database (filter (λ j, ¬ id j = k) (jobs d)) (config d)).
Proof. reflexivity. Qed.

Lemma find_job_filter_ne k k' rows :
  find_job k' (filter (λ j, ¬ id j = k) rows)
  = if decide (k' = k) then None else find_job k' rows.
Proof.
  unfold find_job, fetchone. induction rows as [|j rows IH]; [by case_decide|].
  rewrite (filter_cons (λ j, ¬ id j = k)).
  destruct (decide (¬ id j = k)) as [Hne|Heq].
  - rewrite !filter_cons. destruct (decide (id j = k')) as [<-|?]; [|done].
    simpl. by rewrite decide_False.
  - apply dec_stable in Heq. rewrite IH, filter_cons.
    destruct (decide (k' = k)) as [->|?]; [done|].
    by rewrite decide_False by congruence.
Qed.

(** X7: [delete_job] returns true exactly when a job has the id; afterwards
    no job has it, every other job is found as before, and the
    configuration is unchanged. *)
Theorem delete_job_removes k d :
  ∃ b d', delete_job k d = (Ok b, d')
    ∧ (b = true ↔ ∃ j, (get_job k d).1 = Ok (Some j))
    ∧ (get_job k d').1 = Ok None
    ∧ (∀ k', k' ≠ k → (get_job k' d').1 = (get_job k' d).1)
    ∧ config d' = config d.
Proof.
  eexists. eexists. split; [apply delete_job_full_eq|].
  rewrite !get_job_eq. cbn [fst jobs config]. split.
  - rewrite bool_decide_eq_true. unfold find_job, fetchone.
    destruct (filter _ (jobs d)) as [|j rows]; simpl; split.
    + lia.
    + by intros [? [=]].
    + intros _. by exists j.
    + lia.
  - split; [by rewrite find_job_filter_ne, decide_True|]. split; [|done].
    intros k' Hne. rewrite !get_job_eq. cbn [fst jobs].
    by rewrite find_job_filter_ne, decide_False.
Qed.

(** X8: once [delete_job] has removed a job, its id can be used again:
    [enqueue_job] with that id succeeds whenever the configured defaults
    are readable and the four integers it binds to the INSERT fit in 64
    bits. *)
Theorem delete_job_frees_id py_int jd now d m base :
  config_defaults py_int (config d) = Some (m, base) →
  int64 (default m (jd_max_retries jd)) →
  int64 (default 20 (jd_timeout jd)) →
  int64 (default base (jd_backoff_base jd)) →
  int64 (default 5 (jd_priority jd)) →
  (enqueue_job py_int jd now (delete_job (jd_id jd) d).2).1 = Ok true.
Proof.
  intros Hcfg Hm Ht Hb Hp. rewrite enqueue_job_eq, delete_job_full_eq.
  cbn [snd config jobs]. rewrite Hcfg, decide_True by done.
  rewrite decide_False; [done|].
  rewrite Exists_exists. intros (j & Hj & Hid).
  apply list_elem_of_filter in Hj as [Hne _]. done.
Qed.

Lemma delete_job_frees_id_witness :
  config_defaults decimal_int (config two_waiting) = Some (3, 2)
  ∧ (enqueue_job decimal_int (JobData "lo" "echo again" None None None None) 3
       two_waiting).1 = Ok false
  ∧ (enqueue_job decimal_int (JobData "lo" "echo again" None None None None) 3
       (delete_job "lo" two_waiting).2).1 = Ok true.
Proof.
  split; [reflexivity|]. split; [reflexivity|].
  apply (delete_job_frees_id decimal_int
           (JobData "lo" "echo again" None None None None) 3 two_waiting 3 2);
    [reflexivity | | | |]; unfold int64; simpl; lia.
Defined.

Lemma clear_all_jobs_full_eq d :
  clear_all_jobs d = (Ok (), Database [] (config d)).
Proof.
  unfold clear_all_jobs, transaction, mbind, sql_bind, bind, delete_jobs, commit.
  cbn. do 2 f_equal. induction (jobs d) as [|j rows IH]; [done|].
  rewrite filter_cons, decide_False by tauto. done.
Qed.

(** X9: [clear_all_jobs] removes every job and keeps the configuration;
    after it [get_job] finds nothing and [acquire_job] returns none. *)
Theorem clear_all_jobs_empties d :
  jobs (clear_all_jobs d).2 = []
  ∧ config (clear_all_jobs d).2 = config d
  ∧ (∀ k, (get_job k (clear_all_jobs d).2).1 = Ok None)
  ∧ (∀ w now, acquire_job w now (clear_all_jobs d).2
              = (Ok None, (clear_all_jobs d).2)).
Proof.
  rewrite clear_all_jobs_full_eq. cbn [snd jobs config]. by repeat split.
Qed.

(** ** Listing and counting *)

#[local] Instance newest_first_trans : Transitive newest_first.
Proof. intros a b c. unfold newest_first. lia. Qed.

#[local] Instance newest_first_total : Total newest_first.
Proof. intros a b. unfold newest_first. lia. Qed.

#[local] Instance state_name_inj : Inj (=) (=) state_name.
Proof. by intros [] [] ?. Qed.

Lemma filter_True (rows : list job) : filter (λ _, True) rows = rows.
Proof.
  induction rows as [|j rows IH]; [done|].
  by rewrite filter_cons, decide_True, IH.
Qed.

Lemma list_jobs_eq state_filter d :
  list_jobs state_filter d
  = (Ok (merge_sort newest_first
           match state_filter with
           | Some (String _ _ as name) =>
               filter (λ j, state_name (state j) = name) (jobs d)
           | _ => jobs d
           end), d).
Proof.
  unfold list_jobs, transaction, mbind, sql_bind, bind, select_jobs, mret,
    sql_ret, ret.
  destruct state_filter as [[|a name]|]; cbn; by rewrite ?filter_True.
Qed.

(** X10: [list_jobs] returns the jobs whose state has the given name, each
    as often as it is stored, newest first by [created_at], and leaves the
    store alone; without a name, or with the empty string, these are all
    the jobs. *)
Theorem list_jobs_sorted state_filter d :
  ∃ listed, list_jobs state_filter d = (Ok listed, d)
    ∧ Sorted (λ a b, created_at b ≤ created_at a) listed
    ∧ match state_filter with
      | None | Some "" => listed ≡ₚ jobs d
      | Some name =>
          listed ≡ₚ filter (λ j, state_name (state j) = name) (jobs d)
          ∧ ∀ j, j ∈ listed ↔ j ∈ jobs d ∧ state_name (state j) = name
      end.
Proof.
  eexists. split; [apply list_jobs_eq|]. split.
  { apply (Sorted_merge_sort newest_first). }
  destruct state_filter as [[|a name]|]; try apply merge_sort_Permutation.
  split; [apply merge_sort_Permutation|].
  intros j. rewrite merge_sort_Permutation, list_elem_of_filter. tauto.
Qed.

(** X11: [list_dlq_jobs] returns exactly the dead jobs, newest first; a
    name that is not the name of a state lists nothing. *)
Theorem list_dlq_jobs_dead d :
  (∃ listed, list_dlq_jobs d = (Ok listed, d)
     ∧ (∀ j, j ∈ listed ↔ j ∈ jobs d ∧ state j = dead)
     ∧ length listed = length (filter (λ j, state j = dead) (jobs d)))
  ∧ (∀ name, (∀ s, state_name s ≠ name) → name ≠ "" →
       list_jobs (Some name) d = (Ok [], d)).
Proof.
  split.
  - eexists. split; [apply list_jobs_eq|]. split.
    + intros j. rewrite merge_sort_Permutation, list_elem_of_filter.
      split.
      * intros [Hs%(inj state_name _ dead) ?]. done.
      * by intros [? ->].
    + rewrite merge_sort_Permutation. f_equal. apply list_filter_iff.
      intros j. split; [by intros ?%(inj state_name _ dead)|by intros ->].
  - intros name Hname Hne. rewrite list_jobs_eq.
    destruct name as [|a name]; [done|]. do 2 f_equal.
    rewrite filter_none; [done|]. intros j _. apply Hname.
Qed.

Lemma count_by_state_lookup (rows : list job) s :
  default 0%nat
    ((list_to_map ((λ s, (state_name s, length (filter (λ j, state j = s) rows)))
                   <$> remove_dups (state <$> rows)) : gmap string nat)
     !! state_name s)
  = length (filter (λ j, state j = s) rows).
Proof.
  set (groups := _ <$> remove_dups _).
  assert (NoDup groups.*1) as Hnd.
  { subst groups. rewrite <-list_fmap_compose.
    apply (NoDup_fmap_2 state_name), NoDup_remove_dups. }
  destruct (decide (s ∈ state <$> rows)) as [Hin|Hout].
  - rewrite (elem_of_list_to_map_1 groups (state_name s)
               (length (filter (λ j, state j = s) rows))); [done|done|].
    subst groups. apply list_elem_of_fmap. exists s. split; [done|].
    by apply elem_of_remove_dups.
  - rewrite (not_elem_of_list_to_map_1 groups).
    + simpl. rewrite filter_none; [done|].
      intros j Hj Hs. apply Hout. apply list_elem_of_fmap. by exists j.
    + subst groups. rewrite <-list_fmap_compose. intros Hk.
      apply list_elem_of_fmap in Hk as (s' & Heq & Hs').
      simpl in Heq. apply (inj state_name) in Heq. subst s'.
      rewrite elem_of_remove_dups in Hs'. done.
Qed.

Lemma get_status_eq d :
  get_status d
  = (Ok (Status (length (jobs d))
           (length (filter (λ j, state j = pending) (jobs d)))
           (length (filter (λ j, state j = processing) (jobs d)))
           (length (filter (λ j, state j = completed) (jobs d)))
           (length (filter (λ j, state j = failed) (jobs d)))
           (length (filter (λ j, state j = dead) (jobs d)))), d).
Proof.
  unfold get_status, transaction, mbind, sql_bind, bind, select_jobs,
    count_by_state, mret, sql_ret, ret.
  cbn [connect view disk close fst snd]. rewrite filter_True.
  do 2 f_equal.
  f_equal; [apply (count_by_state_lookup _ pending)
           |apply (count_by_state_lookup _ processing)
           |apply (count_by_state_lookup _ completed)
           |apply (count_by_state_lookup _ failed)
           |apply (count_by_state_lookup _ dead)].
Qed.

Lemma length_by_state (rows : list job) :
  length rows
  = (length (filter (λ j, state j = pending) rows)
     + length (filter (λ j, state j = processing) rows)
     + length (filter (λ j, state j = completed) rows)
     + length (filter (λ j, state j = failed) rows)
     + length (filter (λ j, state j = dead) rows))%nat.
Proof.
  induction rows as [|j rows IH]; [done|].
  rewrite !filter_cons. simpl. rewrite IH.
  destruct (state j); repeat (case_decide; try done); simpl; lia.
Qed.

(** X12: the total [get_status] reports is the number of stored jobs and
    the sum of its five counts, and each count is the number of jobs in
    that state; the store is left alone. *)
Theorem get_status_counts d :
  ∃ st, get_status d = (Ok st, d)
    ∧ status_total st = length (jobs d)
    ∧ (∀ s, status_count st s = length (filter (λ j, state j = s) (jobs d)))
    ∧ status_total st
      = (status_pending st + status_processing st + status_completed st
         + status_failed st + status_dead st)%nat.
Proof.
  eexists. split; [apply get_status_eq|]. cbn. split; [done|].
  split; [by intros []|]. apply length_by_state.
Qed.

(** X13: what [get_status] counts for a state is what [list_jobs] lists
    for the name of that state. *)
Theorem get_status_list_jobs d s :
  ∃ st listed,
    get_status d = (Ok st, d)
    ∧ list_jobs (Some (state_name s)) d = (Ok listed, d)
    ∧ status_count st s = length listed.
Proof.
  eexists. eexists. split; [apply get_status_eq|].
  split; [apply list_jobs_eq|].
  rewrite merge_sort_Permutation.
  transitivity (length (filter (λ j, state j = s) (jobs d))); [by destruct s|].
  f_equal. destruct (state_name s) as [|a name] eqn:Hname; [by destruct s|].
  rewrite <-Hname. apply list_filter_iff. intros j.
  split; [by intros ->|apply (inj state_name)].
Qed.

(** ** State, lock and retry time along a run *)

Lemma Forall_rewrite_rows (I : job → Prop) P `{!∀ j, Decision (P j)} set rows :
  (∀ j, I j → P j → I (set j)) →
  Forall I rows → Forall I (rewrite_rows P set rows).
Proof.
  intros Hset Hrows. unfold rewrite_rows. apply Forall_fmap, Forall_forall.
  intros j Hj. simpl. pose proof (proj1 (Forall_forall _ _) Hrows j Hj).
  case_decide; eauto.
Qed.

Lemma Forall_filter_rows (I : job → Prop) P `{!∀ j, Decision (P j)} (rows : list job) :
  Forall I rows → Forall I (filter P rows).
Proof.
  intros Hrows. apply Forall_forall. intros j Hj.
  apply list_elem_of_filter in Hj as [_ Hj]. by eapply Forall_forall in Hrows.
Qed.

Lemma lock_consistent_set_aged j : lock_consistent j → lock_consistent (set_aged j).
Proof. by destruct j. Qed.

Lemma lock_consistent_set_locked w now j : lock_consistent (set_locked w now j).
Proof. unfold lock_consistent. simpl. naive_solver. Qed.

Lemma lock_consistent_set_completed out t now j :
  lock_consistent (set_completed out t now j).
Proof.
  unfold lock_consistent. simpl.
  repeat split; try done; try (by intros [? [=]]); by eexists.
Qed.

Lemma lock_consistent_fail_set read msg t now now2 j :
  lock_consistent (fail_set read msg t now now2 j).
Proof.
  unfold lock_consistent, fail_set. case_decide; simpl.
  all: repeat split; try done; try (by intros [? [=]]); by eexists.
Qed.

Lemma lock_consistent_set_retried now j : lock_consistent (set_retried now j).
Proof.
  unfold lock_consistent. simpl.
  repeat split; try done; by intros [? [=]].
Qed.

Lemma step_lock_consistent py_int d o :
  Forall lock_consistent (jobs d) →
  Forall lock_consistent (jobs (step py_int d o)).
Proof.
  intros Hd. destruct o as [jd now|w now|k out t now|k msg t now now2|k now|k|]; cbn [step].
  - rewrite enqueue_job_eq.
    destruct (config_defaults py_int (config d)) as [defaults|]; [|done].
    case_decide; [|done]. case_decide; [done|].
    cbn [snd jobs]. apply Forall_app. split.
    + apply Forall_rewrite_rows; [|done].
      intros row ? _. by apply lock_consistent_set_aged.
    + apply Forall_singleton. unfold lock_consistent. simpl.
      repeat split; try done; by intros [? [=]].
  - rewrite acquire_job_eq. destruct (candidate now (jobs d)); [|done].
    cbn zeta. case_decide; cbn [snd jobs];
      (apply Forall_rewrite_rows; [|done]);
      intros row _ _; apply lock_consistent_set_locked.
  - rewrite complete_job_eq. cbn [snd jobs].
    apply Forall_rewrite_rows; [|done].
    intros row _ _. apply lock_consistent_set_completed.
  - rewrite fail_job_eq.
    destruct (find_job k (jobs d)); [|done].
    case_decide; [|done]. cbn [snd jobs].
    apply Forall_rewrite_rows; [|done].
    intros row _ _. apply lock_consistent_fail_set.
  - rewrite retry_dlq_job_eq.
    destruct (find_job k (jobs d)); [|done].
    case_decide; [|done]. cbn [snd jobs].
    apply Forall_rewrite_rows; [|done].
    intros row _ _. apply lock_consistent_set_retried.
  - rewrite delete_job_eq. cbn [jobs]. by apply Forall_filter_rows.
  - rewrite clear_all_jobs_eq. cbn [jobs]. by apply Forall_filter_rows.
Qed.

Lemma run_preserves_lock_consistent py_int ops d :
  Forall lock_consistent (jobs d) →
  Forall lock_consistent (jobs (run py_int ops d)).
Proof.
  revert d. induction ops as [|o ops IH]; intros d Hd; [done|].
  simpl. apply IH. by apply step_lock_consistent.
Qed.

(** [attempts] is never negative on a row the methods have produced. *)
Lemma run_attempts_nonneg py_int ops d :
  Forall (λ j, 0 ≤ attempts j) (jobs d) →
  Forall (λ j, 0 ≤ attempts j) (jobs (run py_int ops d)).
Proof.
  revert d. induction ops as [|o ops IH]; intros d Hd; [done|].
  simpl. apply IH.
  destruct o as [jd now|w now|k out t now|k msg t now now2|k now|k|]; cbn [step].
  - rewrite enqueue_job_eq.
    destruct (config_defaults py_int (config d)) as [defaults|]; [|done].
    case_decide; [|done]. case_decide; [done|].
    cbn [snd jobs]. apply Forall_app. split.
    + apply Forall_rewrite_rows; [|done]. by intros row ? _.
    + by apply Forall_singleton.
  - rewrite acquire_job_eq. destruct (candidate now (jobs d)); [|done].
    cbn zeta. case_decide; cbn [snd jobs];
      (apply Forall_rewrite_rows; [|done]); by intros row ? _.
  - rewrite complete_job_eq. cbn [snd jobs].
    apply Forall_rewrite_rows; [|done]. by intros row ? _.
  - rewrite fail_job_eq.
    destruct (find_job k (jobs d)) as [read|] eqn:Hread; [|done].
    case_decide; [|done]. cbn [snd jobs].
    apply find_job_elem_of in Hread.
    pose proof (proj1 (Forall_forall _ _) Hd read Hread) as Hnn.
    apply Forall_rewrite_rows; [|done].
    intros row _ _. unfold fail_set. case_decide; simpl in *; lia.
  - rewrite retry_dlq_job_eq.
    destruct (find_job k (jobs d)); [|done].
    case_decide; [|done]. cbn [snd jobs].
    apply Forall_rewrite_rows; [|done]. by intros row _ _.
  - rewrite delete_job_eq. cbn [jobs]. by apply Forall_filter_rows.
  - rewrite clear_all_jobs_eq. cbn [jobs]. by apply Forall_filter_rows.
Qed.

(** X14: in every store reached from one without jobs by enqueue, acquire,
    complete, fail, dlq_retry, delete and clear, in any order and on any
    ids, a job is processing exactly when it is locked, [locked_by] and
    [locked_at] are set together, a pending job has no [next_retry_at], a
    failed job has a [next_retry_at] and an error message, a dead job has
    an error message and no [next_retry_at], and a completed job has an
    output. *)
Theorem run_lock_consistent py_int cfg ops j :
  j ∈ jobs (run py_int ops (Database [] cfg)) →
  (state j = processing ↔ is_Some (locked_by j))
  ∧ (is_Some (locked_by j) ↔ is_Some (locked_at j))
  ∧ (state j = pending → next_retry_at j = None)
  ∧ (state j = failed → is_Some (next_retry_at j) ∧ is_Some (error_message j))
  ∧ (state j = dead → next_retry_at j = None ∧ is_Some (error_message j))
  ∧ (state j = completed → is_Some (output j)).
Proof.
  intros Hj.
  pose proof (run_preserves_lock_consistent py_int ops (Database [] cfg)
                (Forall_nil_2 _)) as Hrun.
  by apply (proj1 (Forall_forall _ _) Hrun j Hj).
Qed.

Lemma run_lock_consistent_witness :
  ∃ j, j ∈ jobs (run decimal_int two_failures empty_store)
    ∧ state j = dead ∧ next_retry_at j = None ∧ is_Some (error_message j).
Proof.
  eexists. split; [vm_compute; left|].
  match goal with
  | |- state ?j = _ ∧ _ =>
      destruct (run_lock_consistent decimal_int ∅ two_failures j)
        as (_ & _ & _ & _ & Hdead & _); [vm_compute; left|]
  end.
  split; [reflexivity|]. by apply Hdead.
Defined.

(** ** How the operations compose *)

(** X15: a job that waits, pending or failed and not locked, while [n] jobs
    are enqueued one after the other has its [waiting_time], and so its
    effective priority, raised by [n], and no other column changed. *)
Theorem enqueue_all_ages py_int jds d d' k j :
  enqueue_all py_int jds d = Some d' →
  (get_job k d).1 = Ok (Some j) →
  state j = pending ∨ state j = failed →
  locked_by j = None →
  ∃ j', (get_job k d').1 = Ok (Some j')
    ∧ waiting_time j' = waiting_time j + Z.of_nat (length jds)
    ∧ effective_priority j' = effective_priority j + Z.of_nat (length jds)
    ∧ j' = Job (id j) (command j) (state j) (attempts j) (max_retries j)
             (timeout j) (backoff_base j) (priority j) (waiting_time j')
             (next_retry_at j) (locked_by j) (locked_at j) (output j)
             (error_message j) (execution_time j) (created_at j)
             (updated_at j).
Proof.
  rewrite !get_job_eq. cbn [fst].
  revert d j. induction jds as [|[jd now] jds IH]; intros d j Hall [= Hj] Hst Hl.
  - injection Hall as <-. exists j.
    split; [by rewrite Hj|]. unfold effective_priority. simpl.
    split; [lia|]. split; [lia|]. by destruct j.
  - simpl in Hall.
    destruct (enqueue_job py_int jd now d) as [[[|]|] d1] eqn:Henq; try done.
    destruct (enqueue_job_inserted _ _ _ _ _ Henq) as (defaults & _ & _ & ->).
    destruct (IH _ (set_aged j) Hall) as (j' & Hget & Hw & _ & Hj'); try done.
    { cbn [jobs]. rewrite find_job_app. unfold rewrite_rows.
      rewrite find_job_fmap by (intros r; by case_decide).
      rewrite Hj. simpl. f_equal.
      by rewrite decide_True by done. }
    exists j'. split; [done|]. simpl in Hw, Hj'.
    rewrite length_cons, Nat2Z.inj_succ.
    split; [lia|]. split; [|by rewrite Hj'].
    unfold effective_priority. rewrite Hj' at 1. simpl. lia.
Qed.

Lemma enqueue_all_ages_witness :
  ∃ d' j',
    enqueue_all decimal_int
      [(JobData "c" "echo c" None None None None, 3);
       (JobData "e" "echo e" None None None None, 4)] two_waiting = Some d'
    ∧ (get_job "lo" two_waiting).1
      = Ok (Some (set_aged (new_row "lo" "echo Low" 3 20 2 1 1)))
    ∧ (get_job "lo" d').1 = Ok (Some j')
    ∧ waiting_time j' = 3.
Proof.
  eexists.
  match goal with
  | |- ∃ j', ?e = Some ?d' ∧ _ =>
      destruct (enqueue_all_ages decimal_int
                  [(JobData "c" "echo c" None None None None, 3);
                   (JobData "e" "echo e" None None None None, 4)]
                  two_waiting d' "lo"
                  (set_aged (new_row "lo" "echo Low" 3 20 2 1 1))
                  eq_refl eq_refl (or_introl eq_refl) eq_refl)
        as (j' & Hget & Hw & _)
  end.
  exists j'. split; [reflexivity|]. split; [reflexivity|].
  split; [exact Hget|exact Hw].
Defined.

(** A job is returned whenever one is eligible. *)
Lemma acquire_job_is_Some w now d k :
  k ∈ jobs d → eligible now k →
  ∃ j d', acquire_job w now d = (Ok (Some j), d').
Proof.
  intros Hk Hek. rewrite acquire_job_eq.
  destruct (candidate now (jobs d)) as [c|] eqn:Hc;
    [|by destruct (candidate_None _ _ Hc k Hk)].
  destruct (candidate_Some _ _ _ Hc) as (Hin & [_ Hl] & _). cbn zeta.
  rewrite decide_False.
  - cbn [jobs]. unfold rewrite_rows.
    rewrite find_job_fmap by (intros r; by case_decide).
    destruct (find_job (id c) (jobs d)) as [c'|] eqn:Hfind.
    + by eexists _, _.
    + rewrite find_job_None in Hfind. by destruct (Hfind c Hin).
  - intros Hlen. apply length_zero_iff_nil in Hlen.
    assert (c ∈ filter (λ j, id j = id c ∧ locked_by j = None) (jobs d)) as Hf
      by (by apply list_elem_of_filter).
    rewrite Hlen in Hf. by apply not_elem_of_nil in Hf.
Qed.

(** The job [acquire_job] returns has the id of an eligible row. *)
Lemma acquire_job_Some_eligible w now d j d' :
  acquire_job w now d = (Ok (Some j), d') →
  ∃ c, c ∈ jobs d ∧ eligible now c ∧ id j = id c.
Proof.
  rewrite acquire_job_eq.
  destruct (candidate now (jobs d)) as [c|] eqn:Hc; [|done].
  destruct (candidate_Some _ _ _ Hc) as (Hin & He & _). cbn zeta.
  case_decide; [done|]. intros [= Hj _].
  exists c. split; [done|]. split; [done|]. by apply find_job_Some_id in Hj.
Qed.

(** X16: a recorded failure that leaves a job failed keeps it from being
    acquired until its backoff has passed: the job is eligible at the times
    from [next_retry_at] on and at no earlier time, and [acquire_job] called
    earlier returns another job or none. *)
Theorem fail_job_backoff_respected k msg t now now2 d j :
  (get_job k d).1 = Ok (Some j) →
  attempts j + 1 < max_retries j →
  (fail_job k msg t now now2 d).1 = Ok () →
  ∃ j' retry_at,
    (get_job k (fail_job k msg t now now2 d).2).1 = Ok (Some j')
    ∧ retry_at = now2 + seconds (backoff_base j ^ (attempts j + 1))
    ∧ next_retry_at j' = Some retry_at
    ∧ (∀ time, eligible time j' ↔ retry_at ≤ time)
    ∧ (∀ w time j2 d2,
         time < retry_at →
         acquire_job w time (fail_job k msg t now now2 d).2 = (Ok (Some j2), d2) →
         id j2 ≠ k).
Proof.
  rewrite !get_job_eq. cbn [fst]. intros [= Hj] Hlt Hok.
  apply (fail_job_outcome k msg t now now2 d j Hj) in Hok.
  exists (fail_set j msg t now now2 j). eexists.
  rewrite (fail_job_find _ _ _ _ _ _ j) by done.
  split; [done|]. split; [done|].
  assert (fail_set j msg t now now2
          = set_failed (attempts j + 1) msg t
              (now2 + seconds (backoff_base j ^ (attempts j + 1))) now) as Hset.
  { unfold fail_set. by rewrite decide_False by lia. }
  rewrite Hset. split; [done|]. split.
  - intros time. unfold eligible, retry_due. simpl. split.
    + by intros [[?|[_ ?]] _].
    + intros ?. split; [by right|done].
  - intros w time j2 d2 Htime Hacq Hid.
    apply acquire_job_Some_eligible in Hacq as (c & Hc & He & Hidc).
    rewrite fail_job_eq, Hj, decide_True, Hset in Hc by done.
    cbn [snd jobs] in Hc.
    apply list_elem_of_fmap in Hc as (r & -> & _).
    revert He Hidc. case_decide as Hr.
    + unfold eligible, retry_due. simpl. intros [[?|[_ ?]] _]; [done|lia].
    + intros _ Hidc. congruence.
Qed.

Lemma fail_job_backoff_respected_witness :
  (get_job "a" one_processing).1
    = Ok (Some (set_locked "w1" 2 (new_row "a" "exit 1" 3 20 2 5 1)))
  ∧ ∃ j', (get_job "a" (fail_job "a" "Exit code 1" None 10 10 one_processing).2).1
          = Ok (Some j')
      ∧ next_retry_at j' = Some 2000010
      ∧ (∀ time, eligible time j' ↔ 2000010 ≤ time).
Proof.
  split; [reflexivity|].
  destruct (fail_job_backoff_respected "a" "Exit code 1" None 10 10
              one_processing
              (set_locked "w1" 2 (new_row "a" "exit 1" 3 20 2 5 1)))
    as (j' & retry_at & Hget & -> & Hnext & Hel & _);
    [reflexivity | simpl; lia | reflexivity |].
  exists j'. split; [exact Hget|]. split; [exact Hnext|exact Hel].
Defined.

(** X17: a job brought back from the dead-letter queue can be acquired at
    once: it is eligible at every time, and the next [acquire_job] returns a
    job. *)
Theorem retry_dlq_job_acquirable k now d d' :
  retry_dlq_job k now d = (Ok true, d') →
  (∃ j', (get_job k d').1 = Ok (Some j') ∧ ∀ time, eligible time j')
  ∧ ∀ w time, ∃ j2 d2, acquire_job w time d' = (Ok (Some j2), d2).
Proof.
  rewrite retry_dlq_job_eq.
  destruct (find_job k (jobs d)) as [j|] eqn:Hj; [|done].
  case_decide; [|done]. intros [= <-].
  assert (find_job k (rewrite_rows (λ r, id r = k) (set_retried now) (jobs d))
          = Some (set_retried now j)) as Hfind.
  { by rewrite find_job_rewrite, decide_True, Hj by done. }
  assert (∀ time, eligible time (set_retried now j)) as Hel.
  { intros time. unfold eligible. simpl. split; [by left|done]. }
  split.
  - exists (set_retried now j). rewrite get_job_eq. cbn [fst jobs].
    by rewrite Hfind.
  - intros w time. apply (acquire_job_is_Some _ _ _ (set_retried now j)); [|done].
    cbn [jobs]. by apply find_job_elem_of in Hfind.
Qed.

Lemma retry_dlq_job_acquirable_witness :
  ∃ d', retry_dlq_job "a" 9 one_dead = (Ok true, d')
    ∧ ∃ j2 d2, acquire_job "w1" 9 d' = (Ok (Some j2), d2).
Proof.
  eexists. split; [reflexivity|].
  match goal with
  | |- ∃ j2 d2, acquire_job _ _ ?d' = _ =>
      destruct (retry_dlq_job_acquirable "a" 9 one_dead d' eq_refl) as [_ Hacq]
  end.
  exact (Hacq "w1" 9).
Defined.

(** X18: a job just enqueued can be acquired at once: it is eligible at
    every time, and the next [acquire_job] returns a job. *)
Theorem enqueue_job_acquirable py_int jd now d d' :
  enqueue_job py_int jd now d = (Ok true, d') →
  (∃ j', (get_job (jd_id jd) d').1 = Ok (Some j') ∧ ∀ time, eligible time j')
  ∧ ∀ w time, ∃ j2 d2, acquire_job w time d' = (Ok (Some j2), d2).
Proof.
  intros Henq.
  destruct (enqueue_job_inserted _ _ _ _ _ Henq) as (defaults & _ & Hfind & _).
  assert (∀ time, eligible time (enqueued_row defaults jd now)) as Hel.
  { intros time. unfold eligible. simpl. split; [by left|done]. }
  split.
  - exists (enqueued_row defaults jd now). rewrite get_job_eq. cbn [fst].
    by rewrite Hfind.
  - intros w time.
    apply (acquire_job_is_Some _ _ _ (enqueued_row defaults jd now)); [|done].
    by apply find_job_elem_of in Hfind.
Qed.

Lemma enqueue_job_acquirable_witness :
  ∃ d', enqueue_job decimal_int (JobData "a" "echo a" None None None None) 1
          empty_store = (Ok true, d')
    ∧ ∃ j2 d2, acquire_job "w1" 0 d' = (Ok (Some j2), d2).
Proof.
  eexists. split; [reflexivity|].
  match goal with
  | |- ∃ j2 d2, acquire_job _ _ ?d' = _ =>
      destruct (enqueue_job_acquirable decimal_int
                  (JobData "a" "echo a" None None None None) 1 empty_store d'
                  eq_refl) as [_ Hacq]
  end.
  exact (Hacq "w1" 0).
Defined.

(** ** The worker *)

Lemma fail_job_raises k msg t now now2 d e d' :
  fail_job k msg t now now2 d = (Raise e, d') → d' = d.
Proof.
  rewrite fail_job_eq. destruct (find_job k (jobs d)); [|done].
  case_decide; [done|]. by intros [= _ <-].
Qed.

(** What [_execute_job] does to the store: it completes the job or reports
    a failure, by the id of the job it was given. *)
Lemma execute_job_eq strip job result first text second d :
  (∃ out, execute_job strip job result first text second d
          = complete_job (id job) out (Some (elapsed first)) (read_now first) d
          ∧ ∃ stdout stderr, result = Returned 0 stdout stderr
              ∧ out = if decide (stdout = "") then "" else strip stdout)
  ∨ (∃ msg r, execute_job strip job result first text second d
              = fail_job (id job) msg (Some (elapsed r)) (read_now r)
                  (read_now2 r) d
              ∧ ∀ stdout stderr, result ≠ Returned 0 stdout stderr).
Proof.
  destruct result as [returncode stdout stderr| |message]; cbn [execute_job].
  - case_decide as Hrc.
    + left. eexists. split; [by rewrite complete_job_eq|].
      subst. by eexists _, _.
    + right.
      destruct (fail_job (id job) _ (Some (elapsed first)) (read_now first)
                  (read_now2 first) d) as [[[]|e] d'] eqn:Hfail.
      * eexists _, first. split; [by rewrite Hfail|]. intros ?? [= ? _ _]. done.
      * apply fail_job_raises in Hfail as ->.
        eexists _, second. split; [done|]. intros ?? [= ? _ _]. done.
  - right. eexists _, first. split; [done|]. by intros.
  - right. eexists _, first. split; [done|]. by intros.
Qed.

Lemma fail_job_returns_set_locked w now c now2 :
  fail_job_returns (set_locked w now c) now2 ↔ fail_job_returns c now2.
Proof. done. Qed.

(** [_execute_job] on a job of the store returns exactly when
    [execute_job_returns] holds; when it raises the store is as it was. *)
Lemma execute_job_outcome strip job result first text second d :
  find_job (id job) (jobs d) = Some job →
  ((execute_job strip job result first text second d).1 = Ok ()
   ↔ execute_job_returns job result first second)
  ∧ (¬ execute_job_returns job result first second →
     execute_job strip job result first text second d = (Raise OverflowError, d)).
Proof.
  intros Hfind.
  destruct result as [returncode stdout stderr| |message];
    cbn [execute_job execute_job_returns].
  - case_decide as Hrc.
    + rewrite complete_job_eq. split; [|tauto]. split; [by left|done].
    + rewrite !fail_job_eq, Hfind.
      destruct (decide (fail_job_returns job (read_now2 first))) as [H1|H1].
      { split; [|tauto]. split; [by right; left|done]. }
      rewrite fail_job_eq, Hfind.
      destruct (decide (fail_job_returns job (read_now2 second))) as [H2|H2].
      { split; [|tauto]. split; [by right; right|done]. }
      split; [|done]. split; [done|]. intros [?|[?|?]]; done.
  - rewrite fail_job_eq, Hfind. case_decide; by split.
  - rewrite fail_job_eq, Hfind. case_decide; by split.
Qed.

(** The job [acquire_job] has locked, in the store it leaves. *)
Lemma acquire_job_found w now d c :
  unique_ids d → candidate now (jobs d) = Some c →
  find_job (id c)
    (rewrite_rows (λ j, id j = id c ∧ locked_by j = None) (set_locked w now)
       (jobs d))
  = Some (set_locked w now c).
Proof.
  intros Hu Hc. unfold rewrite_rows.
  rewrite find_job_fmap by (intros r; by case_decide).
  destruct (candidate_Some _ _ _ Hc) as (Hin & [_ Hl] & _).
  rewrite (find_job_unique _ c) by done. simpl. by rewrite decide_True.
Qed.

(** The job [_execute_job] leaves when it returns. *)
Lemma execute_job_found strip j result first text second d1 :
  find_job (id j) (jobs d1) = Some j →
  (execute_job strip j result first text second d1).1 = Ok () →
  ∃ j',
    find_job (id j) (jobs (execute_job strip j result first text second d1).2)
      = Some j'
    ∧ locked_by j' = None ∧ locked_at j' = None
    ∧ match result with
      | Returned 0 stdout _ =>
          state j' = completed ∧ attempts j' = attempts j
          ∧ output j' = Some (if decide (stdout = "") then ""
                              else strip stdout)
          ∧ execution_time j' = Some (elapsed first)
      | Returned _ _ _ =>
          attempts j' = attempts j + 1
          ∧ state j' = (if decide (max_retries j ≤ attempts j + 1)
                        then dead else failed)
          ∧ (if decide (fail_job_returns j (read_now2 first))
             then is_Some (error_message j')
                  ∧ execution_time j' = Some (elapsed first)
             else error_message j' = Some ("Exception: " +:+ text)
                  ∧ execution_time j' = Some (elapsed second))
      | _ =>
          attempts j' = attempts j + 1
          ∧ state j' = (if decide (max_retries j ≤ attempts j + 1)
                        then dead else failed)
          ∧ is_Some (error_message j')
          ∧ execution_time j' = Some (elapsed first)
      end.
Proof.
  intros Hj.
  destruct result as [returncode stdout stderr| |message]; cbn [execute_job].
  - case_decide as Hrc.
    + subst returncode. rewrite complete_job_eq. intros _. cbn [snd jobs].
      eexists. rewrite find_job_rewrite, decide_True, Hj by done.
      split; [done|]. by repeat split.
    + assert (∀ P Q : Prop, P → match returncode with
                                | 0 => Q
                                | _ => P
                                end) as Hnz.
      { intros P Q HP. by destruct returncode. }
      rewrite !fail_job_eq, Hj.
      destruct (decide (fail_job_returns j (read_now2 first))) as [H1|H1].
      * intros _. cbn [snd jobs]. eexists.
        rewrite find_job_rewrite, decide_True, Hj by (try apply fail_set_id; done).
        split; [done|].
        split; [unfold fail_set; by case_decide|].
        split; [unfold fail_set; by case_decide|].
        apply Hnz. unfold fail_set.
        case_decide; simpl; repeat split; by eauto.
      * rewrite fail_job_eq, Hj. case_decide as H2; [|done].
        intros _. cbn [snd jobs]. eexists.
        rewrite find_job_rewrite, decide_True, Hj by (try apply fail_set_id; done).
        split; [done|].
        split; [unfold fail_set; by case_decide|].
        split; [unfold fail_set; by case_decide|].
        apply Hnz. unfold fail_set.
        case_decide; simpl; repeat split; by eauto.
  - rewrite fail_job_eq, Hj. case_decide; [|done].
    intros _. cbn [snd jobs]. eexists.
    rewrite find_job_rewrite, decide_True, Hj by (try apply fail_set_id; done).
    split; [done|].
    unfold fail_set. case_decide; simpl; repeat split; by eauto.
  - rewrite fail_job_eq, Hj. case_decide; [|done].
    intros _. cbn [snd jobs]. eexists.
    rewrite find_job_rewrite, decide_True, Hj by (try apply fail_set_id; done).
    split; [done|].
    unfold fail_set. case_decide; simpl; repeat split; by eauto.
Qed.

(** X19: one turn of the worker's loop under the primary key.  When a job
    is acquired, [_execute_job] returns exactly when the command exits with
    code 0 or [fail_job] accepts a report of the failure, the first one or,
    after a non-zero exit code, the one of the handler.  The turn then ends
    with that job unlocked: completed, with the same [attempts], after exit
    code 0; otherwise with one more attempt, dead if that reaches
    [max_retries] and failed if not, the execution time being that of the
    report [fail_job] accepted; and [poll_count] is 0.  When
    [_execute_job] raises, the job stays processing and locked by the
    worker, and [poll_count] is as it was.  When no job is acquired, the
    store is as it was and the idle poll is counted. *)
Theorem poll_finishes_job strip w n acquired_at result first text second d :
  unique_ids d →
  match acquire_job w acquired_at d with
  | (Ok (Some j), d1) =>
      ((execute_job strip j result first text second d1).1 = Ok ()
       ↔ match result with
         | Returned returncode _ _ =>
             returncode = 0
             ∨ fail_job_returns j (read_now2 first)
             ∨ fail_job_returns j (read_now2 second)
         | _ => fail_job_returns j (read_now2 first)
         end)
      ∧ ((execute_job strip j result first text second d1).1 = Ok () →
         ∃ j',
           (get_job (id j)
              (poll strip w n acquired_at result first text second d).2).1
             = Ok (Some j')
           ∧ (poll strip w n acquired_at result first text second d).1 = 0%nat
           ∧ locked_by j' = None ∧ locked_at j' = None
           ∧ match result with
             | Returned 0 stdout _ =>
                 state j' = completed ∧ attempts j' = attempts j
                 ∧ output j' = Some (if decide (stdout = "") then ""
                                     else strip stdout)
                 ∧ execution_time j' = Some (elapsed first)
             | Returned _ _ _ =>
                 attempts j' = attempts j + 1
                 ∧ state j' = (if decide (max_retries j ≤ attempts j + 1)
                               then dead else failed)
                 ∧ (if decide (fail_job_returns j (read_now2 first))
                    then is_Some (error_message j')
                         ∧ execution_time j' = Some (elapsed first)
                    else error_message j' = Some ("Exception: " +:+ text)
                         ∧ execution_time j' = Some (elapsed second))
             | _ =>
                 attempts j' = attempts j + 1
                 ∧ state j' = (if decide (max_retries j ≤ attempts j + 1)
                               then dead else failed)
                 ∧ is_Some (error_message j')
                 ∧ execution_time j' = Some (elapsed first)
             end)
      ∧ ((execute_job strip j result first text second d1).1 ≠ Ok () →
         poll strip w n acquired_at result first text second d = (n, d1)
         ∧ (get_job (id j) d1).1 = Ok (Some j)
         ∧ state j = processing ∧ locked_by j = Some w)
  | (Ok None, _) =>
      poll strip w n acquired_at result first text second d = (S n, d)
  | (Raise _, _) => False
  end.
Proof.
  intros Hu. unfold poll.
  destruct (candidate acquired_at (jobs d)) as [c|] eqn:Hc;
    [|by rewrite acquire_job_eq, Hc].
  rewrite (acquire_job_candidate _ _ _ c) by done.
  pose proof (acquire_job_found w acquired_at d c Hu Hc) as Hfind.
  set (d1 := Database _ _).
  set (j := set_locked w acquired_at c) in *.
  assert (find_job (id j) (jobs d1) = Some j) as Hj by done.
  assert (state j = processing) as Hst by done.
  assert (locked_by j = Some w) as Hl by done.
  clearbody d1 j. clear Hfind.
  destruct (execute_job_outcome strip j result first text second d1 Hj)
    as [Hret Hraise].
  split; [exact Hret|]. split.
  - intros Hok.
    destruct (execute_job_found strip j result first text second d1 Hj Hok)
      as (j' & Hj' & Hrest).
    exists j'. rewrite get_job_eq. cbn [fst].
    destruct (execute_job strip j result first text second d1) as [[[]|e] d2];
      [|done]. cbn [fst snd] in *. by rewrite Hj'.
  - intros Hno. rewrite Hraise by (by rewrite <-Hret).
    rewrite get_job_eq. cbn [fst]. by rewrite Hj.
Qed.

Lemma poll_finishes_job_witness :
  unique_ids two_waiting
  ∧ ∃ j', (get_job "hi"
             (poll (λ s, s) "w1" 4 3 (Returned 0 "High" "")
                (Report (1 # 10) 5 5) "" (Report (1 # 10) 5 5)
                two_waiting).2).1 = Ok (Some j')
      ∧ state j' = completed ∧ attempts j' = 0 ∧ locked_by j' = None.
Proof.
  split; [compute_done|].
  pose proof (poll_finishes_job (λ s, s) "w1" 4 3 (Returned 0 "High" "")
                (Report (1 # 10) 5 5) "" (Report (1 # 10) 5 5) two_waiting) as H.
  destruct H as (_ & Hdone & _); [compute_done|].
  destruct (Hdone eq_refl) as (j' & Hget & _ & Hl & _ & Hst & Hatt & _).
  exists j'. split; [exact Hget|]. split; [exact Hst|]. split; [exact Hatt|exact Hl].
Defined.

(** A turn on a job whose retry time is not representable: both reports
    of the failure raise, and the job stays processing and locked. *)
Lemma poll_leaves_job_locked :
  ∃ j, jobs (worker_run decimal_int (λ s, s) stuck_day empty_store) = [j]
    ∧ id j = "a" ∧ state j = processing ∧ locked_by j = Some "w1"
    ∧ attempts j = 0.
Proof. eexists. split; [vm_compute; reflexivity|]. done. Qed.

(** X20: what the worker announces before it reports a failure and what
    [fail_job] then does, when it records the failure, differ in one case.
    The worker announces a next attempt as long as
    [attempts + 1 <= max_retries]; [fail_job] retries only while
    [attempts + 1 < max_retries].  So the failure that brings [attempts] to
    [max_retries] is announced as followed by a retry and the job is dead;
    in every other case the job is failed when a retry is announced, with
    the announced delay, and dead when none is. *)
Theorem retry_notice_and_fail_job k msg t now now2 d j :
  (get_job k d).1 = Ok (Some j) →
  (fail_job k msg t now now2 d).1 = Ok () →
  ∃ j', (get_job k (fail_job k msg t now now2 d).2).1 = Ok (Some j')
    ∧ (is_Some (retry_notice j) ∧ state j' = dead
       ↔ attempts j + 1 = max_retries j)
    ∧ (retry_notice j = None → state j' = dead)
    ∧ (state j' = failed →
         ∃ delay, retry_notice j = Some (attempts j + 2, delay)
           ∧ next_retry_at j' = Some (now2 + seconds delay)).
Proof.
  rewrite !get_job_eq. cbn [fst]. intros [= Hj] Hok.
  apply (fail_job_outcome k msg t now now2 d j Hj) in Hok.
  exists (fail_set j msg t now now2 j).
  rewrite (fail_job_find _ _ _ _ _ _ j) by done.
  split; [done|]. unfold retry_notice, fail_set.
  repeat case_decide; simpl; repeat split; try done; try lia.
  all: try (by intros [[? [=]] _]); try (by intros [_ [=]]); try (intros; by eexists).
Qed.

Lemma retry_notice_and_fail_job_witness :
  (get_job "a" (run decimal_int
                  [op_enqueue (JobData "a" "exit 1" (Some 1) None None None) 1;
                   op_acquire "w1" 2] empty_store)).1
    = Ok (Some (set_locked "w1" 2 (new_row "a" "exit 1" 1 20 2 5 1)))
  ∧ retry_notice (set_locked "w1" 2 (new_row "a" "exit 1" 1 20 2 5 1))
    = Some (2, 2)
  ∧ ∃ j', (get_job "a"
             (fail_job "a" "Exit code 1" None 3 3
                (run decimal_int
                   [op_enqueue (JobData "a" "exit 1" (Some 1) None None None) 1;
                    op_acquire "w1" 2] empty_store)).2).1 = Ok (Some j')
      ∧ state j' = dead.
Proof.
  split; [reflexivity|]. split; [reflexivity|].
  destruct (retry_notice_and_fail_job "a" "Exit code 1" None 3 3
              (run decimal_int
                 [op_enqueue (JobData "a" "exit 1" (Some 1) None None None) 1;
                  op_acquire "w1" 2] empty_store)
              (set_locked "w1" 2 (new_row "a" "exit 1" 1 20 2 5 1))
              eq_refl eq_refl)
    as (j' & Hget & Hboth & _).
  exists j'. split; [exact Hget|]. by apply Hboth.
Defined.

(** ** Runs of producers and workers *)

Lemma Forall_rewrite_rows_2 (I J : job → Prop) P `{!∀ j, Decision (P j)} set rows :
  (∀ j, I j → P j → J (set j)) →
  (∀ j, I j → ¬ P j → J j) →
  Forall I rows → Forall J (rewrite_rows P set rows).
Proof.
  intros Hset Hkeep Hrows. unfold rewrite_rows. apply Forall_fmap, Forall_forall.
  intros j Hj. simpl. pose proof (proj1 (Forall_forall _ _) Hrows j Hj).
  case_decide; eauto.
Qed.

Lemma idle_fail_set read msg t now now2 j : idle (fail_set read msg t now now2 j).
Proof. unfold idle, fail_set. by case_decide. Qed.

(** A turn of the loop keeps the primary key and the retry budget, whether
    its report returns or not. *)
Lemma poll_store_ok strip w n acquired_at result first text second d :
  store_ok d →
  store_ok (poll strip w n acquired_at result first text second d).2.
Proof.
  intros Hok. pose proof Hok as [Hu _]. unfold poll.
  destruct (candidate acquired_at (jobs d)) as [c|] eqn:Hc;
    [|by rewrite acquire_job_eq, Hc].
  pose proof (acquire_job_store_ok w acquired_at d Hok) as Hok1.
  rewrite (acquire_job_candidate _ _ _ c) in Hok1 |- * by done.
  cbn [snd] in Hok1. pose proof (acquire_job_found w acquired_at d c Hu Hc) as Hfind.
  set (d1 := Database _ _) in *.
  change (find_job (id c) (jobs d1) = Some (set_locked w acquired_at c)) in Hfind.
  assert (store_ok (execute_job strip (set_locked w acquired_at c) result first
                      text second d1).2) as Hok2.
  { destruct (execute_job_eq strip (set_locked w acquired_at c) result first
                text second d1)
      as [(out & -> & _) | (msg & r & -> & _)]; cbn [id set_locked].
    - by apply complete_job_store_ok.
    - apply fail_job_store_ok; [|done].
      apply (budget_left_live _ _ (set_locked w acquired_at c)); [done|done|].
      by right; right. }
  by destruct (execute_job _ _ _ _ _ _ _) as [[?|?] ?].
Qed.

(** A turn whose report returns leaves no job held. *)
Lemma poll_idle strip w n acquired_at result first text second d :
  unique_ids d → Forall idle (jobs d) →
  poll_reported strip w acquired_at result first text second d →
  Forall idle (jobs (poll strip w n acquired_at result first text second d).2).
Proof.
  intros Hu Hidle. unfold poll, poll_reported.
  destruct (candidate acquired_at (jobs d)) as [c|] eqn:Hc;
    [|by rewrite acquire_job_eq, Hc].
  rewrite (acquire_job_candidate _ _ _ c) by done.
  pose proof (acquire_job_found w acquired_at d c Hu Hc) as Hfind.
  set (d1 := Database _ _) in *.
  change (find_job (id c) (jobs d1) = Some (set_locked w acquired_at c)) in Hfind.
  assert (Forall (λ r, id r = id c ∨ idle r) (jobs d1)) as Hidle1.
  { subst d1. cbn [jobs].
    apply (Forall_rewrite_rows_2 idle); [| |done].
    - intros r _ [Hid _]. by left.
    - intros r Hr _. by right. }
  destruct (execute_job_eq strip (set_locked w acquired_at c) result first
              text second d1)
    as [(out & -> & _) | (msg & r & -> & _)]; cbn [id set_locked].
  - intros _. rewrite complete_job_eq. cbn [snd jobs].
    apply (Forall_rewrite_rows_2 (λ r, id r = id c ∨ idle r)); [| |done].
    + by intros r _ _.
    + by intros r [?|?] ?.
  - rewrite fail_job_eq, Hfind. case_decide; [|done]. intros _.
    cbn [snd jobs].
    apply (Forall_rewrite_rows_2 (λ r, id r = id c ∨ idle r)); [| |done].
    + intros r' _ _. apply idle_fail_set.
    + by intros r' [?|?] ?.
Qed.

Lemma enqueue_job_idle py_int jd now d :
  Forall idle (jobs d) → Forall idle (jobs (enqueue_job py_int jd now d).2).
Proof.
  intros Hidle. rewrite enqueue_job_eq.
  destruct (config_defaults py_int (config d)) as [defaults|]; [|done].
  case_decide; [|done]. case_decide; [done|].
  cbn [snd jobs]. apply Forall_app. split.
  - apply (Forall_rewrite_rows_2 idle); [| |done]; by intros r.
  - by apply Forall_singleton.
Qed.

Lemma worker_step_store_ok py_int strip d o :
  store_ok d → store_ok (worker_step py_int strip d o).
Proof.
  intros Hok. destruct o as [jd now|w t result first text second];
    cbn [worker_step].
  - by apply enqueue_job_store_ok.
  - by apply poll_store_ok.
Qed.

Lemma worker_run_store_ok py_int strip ops d :
  store_ok d → store_ok (worker_run py_int strip ops d).
Proof.
  revert d. induction ops as [|o ops IH]; intros d Hok; [done|].
  simpl. by apply IH, worker_step_store_ok.
Qed.

Lemma worker_run_idle py_int strip ops d :
  store_ok d → Forall idle (jobs d) →
  turns_reported py_int strip ops d →
  Forall idle (jobs (worker_run py_int strip ops d)).
Proof.
  revert d. induction ops as [|o ops IH]; intros d Hok Hidle Hrep; [done|].
  destruct Hrep as [Hturn Hrep]. simpl.
  apply IH; [by apply worker_step_store_ok| |done].
  destruct o as [jd now|w t result first text second]; cbn [worker_step].
  - by apply enqueue_job_idle.
  - apply poll_idle; [by destruct Hok|done|done].
Qed.

Lemma empty_store_ok cfg : store_ok (Database [] cfg).
Proof. split; [apply NoDup_nil_2|apply Forall_nil_2]. Qed.

(** X21: between the turns of a worker whose reports to the store all
    return, no job is held: in every store reached from one without jobs by
    enqueues and whole turns of the worker's loop, in any order, in each
    of which no job was acquired or [_execute_job] returned, no job is
    processing and none is locked. *)
Theorem worker_run_leaves_no_lock py_int strip cfg ops j :
  turns_reported py_int strip ops (Database [] cfg) →
  j ∈ jobs (worker_run py_int strip ops (Database [] cfg)) →
  state j ≠ processing ∧ locked_by j = None.
Proof.
  intros Hrep Hj.
  pose proof (worker_run_idle py_int strip ops (Database [] cfg)
                (empty_store_ok cfg) (Forall_nil_2 _) Hrep) as Hidle.
  by apply (proj1 (Forall_forall _ _) Hidle j Hj).
Qed.

Lemma worker_run_leaves_no_lock_witness :
  turns_reported decimal_int (λ s, s) worker_day empty_store
  ∧ (id <$> jobs (worker_run decimal_int (λ s, s) worker_day empty_store))
    = ["a"; "b"]
  ∧ ∀ j, j ∈ jobs (worker_run decimal_int (λ s, s) worker_day empty_store) →
         state j ≠ processing ∧ locked_by j = None.
Proof.
  split; [vm_compute; repeat split|]. split; [reflexivity|].
  intros j Hj.
  apply (worker_run_leaves_no_lock decimal_int (λ s, s) ∅ worker_day j);
    [vm_compute; repeat split | exact Hj].
Defined.

(** X22: under the worker's loop the retry budget holds: in every store
    reached from one without jobs by enqueues and whole turns of the
    worker's loop, a job enqueued with [max_retries >= 1] never has more
    than [max_retries] attempts, and it has fewer unless it is dead or
    completed. *)
Theorem worker_run_within_budget py_int strip cfg ops j :
  j ∈ jobs (worker_run py_int strip ops (Database [] cfg)) →
  1 ≤ max_retries j →
  attempts j ≤ max_retries j
  ∧ (state j = pending ∨ state j = failed → attempts j < max_retries j).
Proof.
  intros Hj Hmax.
  destruct (worker_run_store_ok py_int strip ops (Database [] cfg)) as [_ Hb];
    [apply empty_store_ok|].
  destruct (proj1 (Forall_forall _ _) Hb j Hj Hmax) as [? Hlt].
  split; [done|]. intros [?|?]; apply Hlt; auto.
Qed.

Lemma worker_run_within_budget_witness :
  ∃ j, j ∈ jobs (worker_run decimal_int (λ s, s) worker_day empty_store)
    ∧ id j = "a" ∧ max_retries j = 1 ∧ attempts j ≤ max_retries j.
Proof.
  eexists. split; [vm_compute; left|].
  split; [reflexivity|]. split; [reflexivity|].
  match goal with
  | |- attempts ?j ≤ _ =>
      apply (worker_run_within_budget decimal_int (λ s, s) ∅ worker_day j);
        [vm_compute; left | simpl; lia]
  end.
Defined.

Lemma poll_dead_exact strip w n acquired_at result first text second d :
  store_ok d → Forall dead_exact (jobs d) →
  Forall dead_exact
    (jobs (poll strip w n acquired_at result first text second d).2).
Proof.
  intros Hok Hdead. pose proof Hok as [Hu _]. unfold poll.
  destruct (candidate acquired_at (jobs d)) as [c|] eqn:Hc;
    [|by rewrite acquire_job_eq, Hc].
  pose proof (acquire_job_store_ok w acquired_at d Hok) as Hok1.
  rewrite (acquire_job_candidate _ _ _ c) in Hok1 |- * by done.
  cbn [snd] in Hok1. pose proof (acquire_job_found w acquired_at d c Hu Hc) as Hfind.
  set (d1 := Database _ _) in *.
  change (find_job (id c) (jobs d1) = Some (set_locked w acquired_at c)) in Hfind.
  assert (Forall (λ r, r ∈ jobs d1 ∧ (state r = processing ∨ dead_exact r))
            (jobs d1)) as Hdead1.
  { apply Forall_forall. intros r Hr. split; [done|].
    subst d1. cbn [jobs] in Hr. apply list_elem_of_fmap in Hr as (r0 & -> & Hr0).
    case_decide; [by left|right].
    by apply (proj1 (Forall_forall _ _) Hdead r0 Hr0). }
  assert (Forall dead_exact
            (jobs (execute_job strip (set_locked w acquired_at c) result first
                     text second d1).2)) as Hdead2.
  { destruct (execute_job_eq strip (set_locked w acquired_at c) result first
                text second d1)
      as [(out & -> & _) | (msg & r & -> & _)]; cbn [id set_locked].
    - rewrite complete_job_eq. cbn [snd jobs].
      eapply Forall_rewrite_rows_2; [| |exact Hdead1].
      + by intros r _ _ _.
      + intros r [Hr [Hst|?]] Hid; [|done]. intros _ Hd. congruence.
    - rewrite fail_job_eq, Hfind. case_decide.
      + cbn [snd jobs].
        eapply Forall_rewrite_rows_2; [| |exact Hdead1].
        * intros r' [Hr _] Hid.
          assert (r' = set_locked w acquired_at c) as ->.
          { destruct Hok1 as [Hu1 _]. apply (unique_ids_eq (jobs d1)); try done.
            by apply find_job_elem_of in Hfind. }
          destruct Hok1 as [_ Hb1].
          pose proof (proj1 (Forall_forall _ _) Hb1 _ Hr) as Hbr.
          unfold dead_exact, fail_set. case_decide; simpl in *; [|done].
          intros Hmax _. destruct (Hbr Hmax) as [_ Hlt].
          specialize (Hlt (or_intror (or_intror eq_refl))). simpl in Hlt. lia.
        * intros r' [Hr [Hst|?]] Hid; [|done]. intros _ Hd. congruence.
      + cbn [snd]. eapply Forall_impl; [exact Hdead1|].
        intros r' [_ [Hst|?]]; [|done]. intros _ Hd. congruence. }
  by destruct (execute_job _ _ _ _ _ _ _) as [[?|?] ?].
Qed.

Lemma worker_run_dead_exact py_int strip ops d :
  store_ok d → Forall dead_exact (jobs d) →
  Forall dead_exact (jobs (worker_run py_int strip ops d)).
Proof.
  revert d. induction ops as [|o ops IH]; intros d Hok Hdead; [done|].
  simpl. apply IH; [by apply worker_step_store_ok|].
  destruct o as [jd now|w t result first text second]; cbn [worker_step].
  - rewrite enqueue_job_eq.
    destruct (config_defaults py_int (config d)) as [defaults|]; [|done].
    case_decide; [|done]. case_decide; [done|].
    cbn [snd jobs]. apply Forall_app. split.
    + apply (Forall_rewrite_rows_2 dead_exact); [| |done]; by intros r.
    + apply Forall_singleton. by intros _ ?.
  - by apply poll_dead_exact.
Qed.

(** X23: under the worker's loop a job is dead exactly when it has used its
    retry budget: in every store reached from one without jobs by enqueues
    and whole turns of the worker's loop, a dead job that was enqueued with
    [max_retries >= 1] has [attempts = max_retries]. *)
Theorem worker_run_dead_after_max_retries py_int strip cfg ops j :
  j ∈ jobs (worker_run py_int strip ops (Database [] cfg)) →
  1 ≤ max_retries j →
  state j = dead →
  attempts j = max_retries j.
Proof.
  intros Hj.
  pose proof (worker_run_dead_exact py_int strip ops (Database [] cfg)
                (empty_store_ok cfg) (Forall_nil_2 _)) as Hdead.
  by apply (proj1 (Forall_forall _ _) Hdead j Hj).
Qed.

Lemma worker_run_dead_after_max_retries_witness :
  ∃ j, j ∈ jobs (worker_run decimal_int (λ s, s) worker_day empty_store)
    ∧ id j = "a" ∧ state j = dead ∧ attempts j = max_retries j.
Proof.
  eexists. split; [vm_compute; left|].
  split; [reflexivity|]. split; [reflexivity|].
  match goal with
  | |- attempts ?j = _ =>
      apply (worker_run_dead_after_max_retries decimal_int (λ s, s) ∅
               worker_day j); [vm_compute; left | simpl; lia | reflexivity]
  end.
Defined.

(** ** The command line *)

(** X24: the [enqueue] command never uses the configured defaults: a job
    it stores has the [max_retries] and [backoff_base] given on the command
    line, or 3 and 2, whatever the configuration holds.  It exits with 0
    when the job is stored, and with 1, the store unchanged, when a job has
    the id, a configured default is not readable as an integer, or one of
    the four integers of the command line does not fit in 64 bits. *)
Theorem cli_enqueue_ignores_config py_int job_id command retries tmo base prio
    now d :
  ∃ code d',
    cli_enqueue py_int job_id command retries tmo base prio now d = (code, d')
    ∧ (code = 0 ∨ code = 1)
    ∧ (code = 0 ↔ is_Some (config_defaults py_int (config d))
                  ∧ int64 (default 3 retries) ∧ int64 (default 20 tmo)
                  ∧ int64 (default 2 base) ∧ int64 (default 5 prio)
                  ∧ (get_job job_id d).1 = Ok None)
    ∧ (code = 1 → d' = d)
    ∧ (code = 0 →
         ∃ new, (get_job job_id d').1 = Ok (Some new)
           ∧ max_retries new = default 3 retries
           ∧ timeout new = default 20 tmo
           ∧ backoff_base new = default 2 base
           ∧ priority new = default 5 prio).
Proof.
  unfold cli_enqueue.
  set (jd := JobData _ _ _ _ _ _).
  destruct (enqueue_job py_int jd now d) as [[[|]|e] d'] eqn:Henq.
  - exists 0, d'. split; [done|]. split; [by left|].
    destruct (enqueue_job_inserted _ _ _ _ _ Henq) as (defaults & Hcfg & Hfind & _).
    split; [|split; [done|]].
    + split; [|done]. intros _. split; [by eexists|].
      rewrite enqueue_job_eq, Hcfg in Henq.
      case_decide as Hbinds; [|done]. case_decide as Hex; [done|].
      destruct Hbinds as (? & ? & ? & ?). do 4 (split; [done|]).
      rewrite get_job_eq. cbn [fst]. f_equal.
      destruct (find_job job_id (jobs d)) eqn:Hf; [|done].
      destruct Hex. apply (find_job_Exists job_id). by rewrite Hf.
    + intros _. exists (enqueued_row defaults jd now).
      rewrite get_job_eq. cbn [fst]. subst jd. cbn [jd_id] in Hfind.
      by rewrite Hfind.
  - exists 1, d'. split; [done|]. split; [by right|].
    rewrite enqueue_job_eq in Henq. rewrite get_job_eq. cbn [fst].
    destruct (config_defaults py_int (config d)) as [defaults|].
    + case_decide as Hbinds; [case_decide as Hex; [|done]|].
      * injection Henq as <-.
        split; [|done]. split; [done|]. intros (_ & _ & _ & _ & _ & [= Hnone]).
        apply (find_job_Exists job_id) in Hex as [? Hex]. cbn in Hex. congruence.
      * injection Henq as <-.
        split; [|done]. split; [done|]. intros (_ & ? & ? & ? & ? & _).
        by destruct Hbinds.
    + injection Henq as <-. split; [|done]. split; [done|].
      by intros [[? [=]] _].
  - rewrite enqueue_job_eq in Henq.
    destruct (config_defaults py_int (config d)); [repeat case_decide|]; done.
Qed.
